(** * BreakingChange: the change-detection pipeline of [scripts/watch.py]
      and the site renderer of [scripts/build_site.py]

    The development embeds the two scripts as Rocq functions and settles the
    properties their specification states about them.

    Conventions of the embedding.
    - A Python [str] is a [string] of 8-bit characters, read as the code
      points U+0000..U+00FF.  Every builtin below is the restriction of the
      Python builtin to that range; where its result can leave the range
      ([str.upper], [str.title]) it returns the list of the code points.
    - Python integers are [Z] where the code subtracts (indices of the
      sequence matcher) and [nat] where it only counts.
    - A Python [float] is an exact rational [Q]: the one float of the program,
      the similarity ratio, is [2.0 * matches / length] and is only compared
      with the literal [0.995]; the rounding of that single division is not
      modelled.
    - Dictionaries are [gmap]s, Python lists are lists.
    - Collaborators outside the repository (the HTTP client, the text
      extractor, the clock) are inputs of the functions that use them, and so
      is the way each write of a recording ends: in full, refused when the
      file is opened, or broken off after that.
    - A file is known by the string of its path, and paths are those of
      POSIX. *)

From Stdlib Require Import ZArith QArith Ascii String List Bool Lia.
From stdpp Require Import base gmap strings list pretty sorting.

Local Open Scope string_scope.
Local Open Scope list_scope.
Local Open Scope Z_scope.

(** ** Python's string builtins *)

Module PyStr.

(** The code point of a character. *)
Definition ord (c : ascii) : N := N_of_ascii c.

Definition chr (n : N) : ascii := ascii_of_N n.

(** [str.isspace] on one character, which is also the class [\s] of [re] on
    [str] patterns: TAB, LF, VT, FF, CR, FS, GS, RS, US, SPACE, NEL, NBSP. *)
Definition isspace (c : ascii) : bool :=
  let n := ord c in
  ((9 <=? n) && (n <=? 13) || (28 <=? n) && (n <=? 31)
   || (n =? 32) || (n =? 133) || (n =? 160))%N.

(** The line boundaries of [str.splitlines]: LF, VT, FF, CR, FS, GS, RS and
    NEL (U+2028 and U+2029 lie outside the modelled range). *)
Definition is_linebreak (c : ascii) : bool :=
  let n := ord c in
  ((10 <=? n) && (n <=? 13) || (28 <=? n) && (n <=? 30) || (n =? 133))%N.

(** The class [\d] of [re]: the decimal digits. *)
Definition isdigit (c : ascii) : bool :=
  let n := ord c in ((48 <=? n) && (n <=? 57))%N.

Definition is_ascii_upper (c : ascii) : bool :=
  let n := ord c in ((65 <=? n) && (n <=? 90))%N.

Definition is_ascii_lower (c : ascii) : bool :=
  let n := ord c in ((97 <=? n) && (n <=? 122))%N.

(** Cased characters above ASCII: A-grave..Thorn without the multiplication
    sign are upper case and map to the character 32 positions later. *)
Definition is_latin1_upper (c : ascii) : bool :=
  let n := ord c in ((192 <=? n) && (n <=? 222) && negb (n =? 215))%N.

Definition is_latin1_lower (c : ascii) : bool :=
  let n := ord c in ((224 <=? n) && (n <=? 254) && negb (n =? 247))%N.

Definition lower_char (c : ascii) : ascii :=
  if is_ascii_upper c || is_latin1_upper c then chr (ord c + 32) else c.

Definition upper_char (c : ascii) : ascii :=
  if is_ascii_lower c || is_latin1_lower c then chr (ord c - 32) else c.

(** Characters [str.title] treats as letters of a word. *)
Definition is_cased (c : ascii) : bool :=
  is_ascii_upper c || is_ascii_lower c || is_latin1_upper c || is_latin1_lower c
  || (ord c =? 181)%N || (ord c =? 223)%N || (ord c =? 255)%N
  || (ord c =? 170)%N || (ord c =? 186)%N.

Fixpoint map_chars (f : ascii -> ascii) (s : string) : string :=
  match s with
  | EmptyString => EmptyString
  | String c s' => String (f c) (map_chars f s')
  end.

(** [s.lower()] *)
Definition lower (s : string) : string := map_chars lower_char s.

(** [len(s)] *)
Definition len (s : string) : nat := String.length s.

(** [s.startswith(p)] *)
Definition startswith (p s : string) : bool := String.prefix p s.

(** [s.startswith((p1, p2, ...))] *)
Definition startswith_any (ps : list string) (s : string) : bool :=
  existsb (fun p => startswith p s) ps.

(** [s[1:]] *)
Definition drop1 (s : string) : string :=
  match s with
  | EmptyString => EmptyString
  | String _ s' => s'
  end.

(** [k in s] *)
Fixpoint contains (k s : string) : bool :=
  startswith k s ||
  match s with
  | EmptyString => false
  | String _ s' => contains k s'
  end.

(** [sep.join(l)] *)
Fixpoint join (sep : string) (l : list string) : string :=
  match l with
  | [] => EmptyString
  | [x] => x
  | x :: rest => x +:+ sep +:+ join sep rest
  end.

Definition LF : ascii := chr 10.
Definition CR : ascii := chr 13.

Definition starts_with_char (p : ascii -> bool) (s : string) : bool :=
  match s with
  | EmptyString => false
  | String c _ => p c
  end.

(** [s.splitlines()]: the pieces between line boundaries, boundaries
    dropped, CR LF one boundary, and no empty piece after a final
    boundary.  A character that is no boundary joins the piece its
    successor starts. *)
Fixpoint splitlines (s : string) : list string :=
  match s with
  | EmptyString => []
  | String c s' =>
      if is_linebreak c then
        if Ascii.eqb c CR && starts_with_char (Ascii.eqb LF) s'
        then splitlines s'
        else EmptyString :: splitlines s'
      else
        match splitlines s' with
        | [] => [String c EmptyString]
        | l :: ls => String c l :: ls
        end
  end.

(** [s.split()]: the maximal runs of characters that are not white space. *)
Fixpoint split (s : string) : list string :=
  match s with
  | EmptyString => []
  | String c s' =>
      if isspace c then split s'
      else if starts_with_char (fun d => negb (isspace d)) s' then
        match split s' with
        | [] => [String c EmptyString]
        | w :: ws => String c w :: ws
        end
      else String c EmptyString :: split s'
  end.

(** [s.strip()] *)
Fixpoint lstrip (s : string) : string :=
  match s with
  | EmptyString => EmptyString
  | String c s' => if isspace c then lstrip s' else s
  end.

Fixpoint rstrip (s : string) : string :=
  match s with
  | EmptyString => EmptyString
  | String c s' =>
      match rstrip s' with
      | EmptyString => if isspace c then EmptyString else String c EmptyString
      | r => String c r
      end
  end.

Definition strip (s : string) : string := lstrip (rstrip s).

(** [re.sub(r"\s+", " ", s)]: every maximal run of white space becomes one
    space. *)
Fixpoint collapse_ws (s : string) : string :=
  match s with
  | EmptyString => EmptyString
  | String c s' =>
      if isspace c then
        if starts_with_char isspace s' then collapse_ws s'
        else String " " (collapse_ws s')
      else String c (collapse_ws s')
  end.

(** [s.replace(old, new)] for one-character [old] and [new]. *)
Definition replace_char (old new : ascii) (s : string) : string :=
  map_chars (fun c => if Ascii.eqb c old then new else c) s.

(** The code points of a text.  The upper case of three characters of the
    range is no character of the range: sharp s gives two letters, the micro
    sign and y-diaeresis give U+039C and U+0178.  What [str.upper] and
    [str.title] return is therefore a list of code points. *)
Fixpoint points (s : string) : list N :=
  match s with
  | EmptyString => []
  | String c s' => ord c :: points s'
  end.

(** [c.upper()] *)
Definition upper_points (c : ascii) : list N :=
  let n := ord c in
  if (n =? 223)%N then [83; 83]%N
  else if (n =? 181)%N then [924]%N
  else if (n =? 255)%N then [376]%N
  else [ord (upper_char c)].

(** The title case of [c], which differs from its upper case for sharp s. *)
Definition title_points (c : ascii) : list N :=
  if (ord c =? 223)%N then [83; 115]%N else upper_points c.

(** [s.title()]: a cased character that follows one that is not cased goes
    to title case, one that follows a cased character to lower case. *)
Fixpoint title_go (prev_cased : bool) (s : string) : list N :=
  match s with
  | EmptyString => []
  | String c s' =>
      (if prev_cased then [ord (lower_char c)] else title_points c)
        ++ title_go (is_cased c) s'
  end.

Definition title (s : string) : list N := title_go false s.

(** [s.upper()] *)
Fixpoint upper (s : string) : list N :=
  match s with
  | EmptyString => []
  | String c s' => upper_points c ++ upper s'
  end.

End PyStr.

Import PyStr.

(** ** [difflib]: the sequence matcher and the unified diff

    [SequenceMatcher(None, a, b)]: no junk predicate, [autojunk] left at its
    default [True].  The methods are functions of the two sequences. *)

Module Difflib.

Inductive tag := Replace | Delete | Insert | Equal.

Definition opcode : Type := tag * Z * Z * Z * Z.
Definition block : Type := Z * Z * Z.

Definition tag_eqb (x y : tag) : bool :=
  match x, y with
  | Replace, Replace | Delete, Delete | Insert, Insert | Equal, Equal => true
  | _, _ => false
  end.

(** [x < y] on floats, here on rationals. *)
Definition Qltb (x y : Q) : bool := negb (Qle_bool y x).

(** [_calculate_ratio(matches, length)] *)
Definition _calculate_ratio (matches length : Z) : Q :=
  if length =? 0 then 1%Q
  else (2 * inject_Z matches / inject_Z length)%Q.

Section SequenceMatcher.
Context {T : Type} `{Countable T}.

(** [l[i]] at an index that is not negative. *)
Definition item (l : list T) (i : Z) : option T := l !! Z.to_nat i.

(** [l[i:j]] at bounds that are not negative. *)
Definition slice {A : Type} (l : list A) (i j : Z) : list A :=
  take (Z.to_nat j - Z.to_nat i) (drop (Z.to_nat i) l).

(** [a[i] == b[j]] *)
Definition eq_at (a : list T) (i : Z) (b : list T) (j : Z) : bool :=
  match item a i, item b j with
  | Some x, Some y => bool_decide (x = y)
  | _, _ => false
  end.

(** [__chain_b]: [b2j] maps an element of [b] to the increasing list of its
    indices; with 200 elements or more, the elements that occur more than
    [n // 100 + 1] times are dropped from it. *)
Definition chain_b (b : list T) : gmap T (list Z) :=
  let b2j :=
    foldl (fun (b2j : gmap T (list Z)) '(i, elt) =>
             <[elt := default [] (b2j !! elt) ++ [i]]> b2j)
          ∅ (imap (fun i elt => (Z.of_nat i, elt)) b) in
  let n := Z.of_nat (length b) in
  if 200 <=? n then
    let ntest := n / 100 + 1 in
    filter (fun kv : T * list Z => Z.of_nat (length kv.2) ≤ ntest) b2j
  else b2j.

(** [self.bjunk.__contains__]: the junk set stays empty without a junk
    predicate. *)
Definition isbjunk (x : T) : bool := false.

Definition isbjunk_at (b : list T) (j : Z) : bool :=
  match item b j with
  | Some x => isbjunk x
  | None => false
  end.

(** The inner loop of [find_longest_match] over the indices [js] of [a[i]]
    in [b]. *)
Fixpoint scan_js (blo bhi i : Z) (j2len : gmap Z Z) (js : list Z)
    (newj2len : gmap Z Z) (best : block) : gmap Z Z * block :=
  match js with
  | [] => (newj2len, best)
  | j :: js' =>
      if j <? blo then scan_js blo bhi i j2len js' newj2len best
      else if bhi <=? j then (newj2len, best)
      else
        let k := default 0 (j2len !! (j - 1)) + 1 in
        let newj2len := <[j := k]> newj2len in
        let best :=
          let '(besti, bestj, bestsize) := best in
          if bestsize <? k then (i - k + 1, j - k + 1, k) else best in
        scan_js blo bhi i j2len js' newj2len best
  end.

(** One round of the outer loop: [i] in [range(alo, ahi)]. *)
Definition scan_i (a : list T) (b2j : gmap T (list Z)) (blo bhi : Z)
    (st : gmap Z Z * block) (i : Z) : gmap Z Z * block :=
  let '(j2len, best) := st in
  let js := match item a i with
            | Some x => default [] (b2j !! x)
            | None => []
            end in
  scan_js blo bhi i j2len js ∅ best.

(** The loops that extend the best block to the left and to the right, over
    elements that are junk ([junk = true]) or are not ([junk = false]).  The
    first argument bounds the rounds by the room that is left. *)
Fixpoint extend_left (room : nat) (junk : bool) (a b : list T) (alo blo : Z)
    (best : block) : block :=
  match room with
  | O => best
  | S room' =>
      let '(besti, bestj, bestsize) := best in
      if (alo <? besti) && (blo <? bestj)
         && Bool.eqb (isbjunk_at b (bestj - 1)) junk
         && eq_at a (besti - 1) b (bestj - 1)
      then extend_left room' junk a b alo blo (besti - 1, bestj - 1, bestsize + 1)
      else best
  end.

Fixpoint extend_right (room : nat) (junk : bool) (a b : list T) (ahi bhi : Z)
    (best : block) : block :=
  match room with
  | O => best
  | S room' =>
      let '(besti, bestj, bestsize) := best in
      if (besti + bestsize <? ahi) && (bestj + bestsize <? bhi)
         && Bool.eqb (isbjunk_at b (bestj + bestsize)) junk
         && eq_at a (besti + bestsize) b (bestj + bestsize)
      then extend_right room' junk a b ahi bhi (besti, bestj, bestsize + 1)
      else best
  end.

Definition room_left (alo : Z) (best : block) : nat := Z.to_nat (best.1.1 - alo).
Definition room_right (ahi : Z) (best : block) : nat :=
  Z.to_nat (ahi - (best.1.1 + best.2)).

(** The first loop of [find_longest_match]: the longest block of elements
    [b2j] knows, the earliest in [a] and then in [b] among the longest. *)
Definition scan (a : list T) (b2j : gmap T (list Z)) (alo ahi blo bhi : Z) : block :=
  (foldl (scan_i a b2j blo bhi) (∅, (alo, blo, 0)) (seqZ alo (ahi - alo))).2.

(** The four loops that follow it. *)
Definition extend (a b : list T) (alo ahi blo bhi : Z) (best : block) : block :=
  let best := extend_left (room_left alo best) false a b alo blo best in
  let best := extend_right (room_right ahi best) false a b ahi bhi best in
  let best := extend_left (room_left alo best) true a b alo blo best in
  let best := extend_right (room_right ahi best) true a b ahi bhi best in
  best.

(** [find_longest_match(alo, ahi, blo, bhi)] *)
Definition find_longest_match (a b : list T) (b2j : gmap T (list Z))
    (alo ahi blo bhi : Z) : block :=
  extend a b alo ahi blo bhi (scan a b2j alo ahi blo bhi).

(** The work list of [get_matching_blocks].  Python appends to and pops from
    the end of [queue]; here the head of the list is that end.  Every round
    pops one region, so [rounds] bounds the loop; it returns the blocks
    found and what is left of the queue. *)
Fixpoint matching_loop (rounds : nat) (a b : list T) (b2j : gmap T (list Z))
    (queue : list (Z * Z * Z * Z)) (matching_blocks : list block)
    : list block * list (Z * Z * Z * Z) :=
  match rounds with
  | O => (matching_blocks, queue)
  | S rounds' =>
      match queue with
      | [] => (matching_blocks, [])
      | (alo, ahi, blo, bhi) :: queue =>
          let '(i, j, k) := find_longest_match a b b2j alo ahi blo bhi in
          if k =? 0 then matching_loop rounds' a b b2j queue matching_blocks
          else
            let queue :=
              if (alo <? i) && (blo <? j) then (alo, i, blo, j) :: queue
              else queue in
            let queue :=
              if (i + k <? ahi) && (j + k <? bhi) then (i + k, ahi, j + k, bhi) :: queue
              else queue in
            matching_loop rounds' a b b2j queue (matching_blocks ++ [(i, j, k)])
      end
  end.

(** The order of tuples of integers. *)
Definition block_le (x y : block) : Prop :=
  let '(i1, j1, k1) := x in
  let '(i2, j2, k2) := y in
  i1 < i2 ∨ (i1 = i2 ∧ (j1 < j2 ∨ (j1 = j2 ∧ k1 ≤ k2))).

#[global] Instance block_le_dec : RelDecision block_le.
Proof. intros [[i1 j1] k1] [[i2 j2] k2]. unfold block_le. apply _. Defined.

(** The loop that merges adjacent blocks. *)
Definition collapse_step (st : Z * Z * Z * list block) (x : block)
    : Z * Z * Z * list block :=
  let '(i1, j1, k1, non_adjacent) := st in
  let '(i2, j2, k2) := x in
  if (i1 + k1 =? i2) && (j1 + k1 =? j2) then (i1, j1, k1 + k2, non_adjacent)
  else
    let non_adjacent :=
      if k1 =? 0 then non_adjacent else non_adjacent ++ [(i1, j1, k1)] in
    (i2, j2, k2, non_adjacent).

(** A region of [size] elements of [a] needs at most [2 * size + 1] rounds. *)
Definition rounds_for (a : list T) : nat := (2 * length a + 1)%nat.

(** [get_matching_blocks()] *)
Definition get_matching_blocks (a b : list T) : list block :=
  let la := Z.of_nat (length a) in
  let lb := Z.of_nat (length b) in
  let b2j := chain_b b in
  let '(matching_blocks, _) :=
    matching_loop (rounds_for a) a b b2j [(0, la, 0, lb)] [] in
  let matching_blocks := merge_sort block_le matching_blocks in
  let '(i1, j1, k1, non_adjacent) :=
    foldl collapse_step (0, 0, 0, []) matching_blocks in
  let non_adjacent :=
    if k1 =? 0 then non_adjacent else non_adjacent ++ [(i1, j1, k1)] in
  non_adjacent ++ [(la, lb, 0)].

(** The loop of [get_opcodes]. *)
Definition opcode_step (st : Z * Z * list opcode) (x : block)
    : Z * Z * list opcode :=
  let '(i, j, answer) := st in
  let '(ai, bj, size) := x in
  let answer :=
    if (i <? ai) && (j <? bj) then answer ++ [(Replace, i, ai, j, bj)]
    else if i <? ai then answer ++ [(Delete, i, ai, j, bj)]
    else if j <? bj then answer ++ [(Insert, i, ai, j, bj)]
    else answer in
  let i' := ai + size in
  let j' := bj + size in
  let answer :=
    if size =? 0 then answer else answer ++ [(Equal, ai, i', bj, j')] in
  (i', j', answer).

(** [get_opcodes()] *)
Definition get_opcodes (a b : list T) : list opcode :=
  (foldl opcode_step (0, 0, []) (get_matching_blocks a b)).2.

(** [codes[0] = ...] and [codes[-1] = ...] of [get_grouped_opcodes]. *)
Definition trim_first (n : Z) (codes : list opcode) : list opcode :=
  match codes with
  | (Equal, i1, i2, j1, j2) :: rest =>
      (Equal, Z.max i1 (i2 - n), i2, Z.max j1 (j2 - n), j2) :: rest
  | _ => codes
  end.

Fixpoint trim_last (n : Z) (codes : list opcode) : list opcode :=
  match codes with
  | [] => []
  | [(Equal, i1, i2, j1, j2)] =>
      [(Equal, i1, Z.min i2 (i1 + n), j1, Z.min j2 (j1 + n))]
  | c :: rest => c :: trim_last n rest
  end.

(** The loop of [get_grouped_opcodes]: the groups yielded so far and the
    group being built. *)
Definition group_step (n : Z) (st : list (list opcode) * list opcode)
    (c : opcode) : list (list opcode) * list opcode :=
  let '(yielded, group) := st in
  let '(tg, i1, i2, j1, j2) := c in
  if tag_eqb tg Equal && (n + n <? i2 - i1) then
    let group := group ++ [(tg, i1, Z.min i2 (i1 + n), j1, Z.min j2 (j1 + n))] in
    (yielded ++ [group], [(tg, Z.max i1 (i2 - n), i2, Z.max j1 (j2 - n), j2)])
  else (yielded, group ++ [c]).

(** [get_grouped_opcodes(n)], the generator's output as a list. *)
Definition get_grouped_opcodes (n : Z) (a b : list T) : list (list opcode) :=
  let codes := get_opcodes a b in
  let codes := match codes with [] => [(Equal, 0, 1, 0, 1)] | _ => codes end in
  let codes := trim_first n codes in
  let codes := trim_last n codes in
  let '(yielded, group) := foldl (group_step n) ([], []) codes in
  match group with
  | [] => yielded
  | [(Equal, _, _, _, _)] => yielded
  | _ => yielded ++ [group]
  end.

(** The loop of [quick_ratio] that counts the elements of [b]. *)
Definition count_step (fullbcount : gmap T Z) (elt : T) : gmap T Z :=
  <[elt := default 0 (fullbcount !! elt) + 1]> fullbcount.

(** [avail[elt] if availhas(elt) else fullbcount.get(elt, 0)] *)
Definition numb_of (fullbcount avail : gmap T Z) (elt : T) : Z :=
  match avail !! elt with
  | Some v => v
  | None => default 0 (fullbcount !! elt)
  end.

(** The loop of [quick_ratio] over the elements of [a]. *)
Definition avail_step (fullbcount : gmap T Z) (st : gmap T Z * Z) (elt : T)
    : gmap T Z * Z :=
  let '(avail, matches) := st in
  let numb := numb_of fullbcount avail elt in
  (<[elt := numb - 1]> avail, if 0 <? numb then matches + 1 else matches).

(** [quick_ratio()] *)
Definition quick_ratio (a b : list T) : Q :=
  let fullbcount := foldl count_step ∅ b in
  let matches := (foldl (avail_step fullbcount) (∅, 0) a).2 in
  _calculate_ratio matches (Z.of_nat (length a) + Z.of_nat (length b)).

End SequenceMatcher.

(** ['{}'.format(n)] *)
Definition fmt (n : Z) : string := pretty n.

(** [_format_range_unified(start, stop)] *)
Definition _format_range_unified (start stop : Z) : string :=
  let beginning := start + 1 in
  let length := stop - start in
  if length =? 1 then fmt beginning
  else
    let beginning := if length =? 0 then beginning - 1 else beginning in
    fmt beginning +:+ "," +:+ fmt length.

(** The lines one opcode of a group contributes. *)
Definition opcode_lines (a b : list string) (c : opcode) : list string :=
  let '(tg, i1, i2, j1, j2) := c in
  match tg with
  | Equal => map (String.append " ") (slice a i1 i2)
  | Replace =>
      map (String.append "-") (slice a i1 i2) ++ map (String.append "+") (slice b j1 j2)
  | Delete => map (String.append "-") (slice a i1 i2)
  | Insert => map (String.append "+") (slice b j1 j2)
  end.

Definition first_last (group : list opcode) : opcode * opcode :=
  (hd (Equal, 0, 0, 0, 0) group, List.last group (Equal, 0, 0, 0, 0)).

(** The hunk of one group: its range line and its body. *)
Definition hunk (a b : list string) (group : list opcode) : list string :=
  let '(first, last) := first_last group in
  let '(_, f1, _, f3, _) := first in
  let '(_, _, l2, _, l4) := last in
  let file1_range := _format_range_unified f1 l2 in
  let file2_range := _format_range_unified f3 l4 in
  ("@@ -" +:+ file1_range +:+ " +" +:+ file2_range +:+ " @@")
    :: concat (map (opcode_lines a b) group).

(** [unified_diff(a, b, lineterm="")]: the file names and dates are empty,
    [n] is 3; the two header lines come before the first hunk. *)
Definition unified_diff (a b : list string) : list string :=
  match get_grouped_opcodes 3 a b with
  | [] => []
  | groups => "--- " :: "+++ " :: concat (map (hunk a b) groups)
  end.

End Difflib.

(** ** [re]: the fragment the effective-date pattern needs

    A backtracking matcher in the order [re] tries things: the left branch
    of an alternation first, a repetition as long as it can be and shorter
    only on failure, the leftmost start first. *)

Module Re.

Inductive regex :=
| Lit (s : string)                                   (* the characters of [s] *)
| Rep (cls : ascii -> bool) (lo : nat) (hi : option nat) (* [cls{lo,hi}], greedy *)
| Seq (r1 r2 : regex)
| Alt (r1 r2 : regex)                                (* [r1|r2] *)
| Opt (r : regex)                                    (* [r?], greedy *)
| Group (n : nat) (r : regex).                       (* the [n]-th [( )] *)

(** The groups that took part in a match, with the text each matched. *)
Definition captures : Type := gmap nat string.

(** With [re.I] a character of the pattern matches a character of the text
    when their lower cases agree. *)
Definition eqb_nocase (c d : ascii) : bool :=
  Ascii.eqb (lower_char c) (lower_char d).

Fixpoint match_lit (l s : string) : option string :=
  match l, s with
  | EmptyString, _ => Some s
  | String c l', String d s' => if eqb_nocase c d then match_lit l' s' else None
  | String _ _, EmptyString => None
  end.

Definition hi_allows (hi : option nat) : bool :=
  match hi with
  | Some O => false
  | _ => true
  end.

Fixpoint match_rep (cls : ascii -> bool) (lo : nat) (hi : option nat)
    (s : string) (k : string -> option captures) : option captures :=
  let stop := match lo with O => k s | S _ => None end in
  match s with
  | String c s' =>
      if cls c && hi_allows hi then
        match match_rep cls (pred lo) (pred <$> hi) s' k with
        | Some m => Some m
        | None => stop
        end
      else stop
  | EmptyString => stop
  end.

(** [match_at r s caps k]: match [r] at the start of [s], then go on with
    [k] on the rest of the text; [None] makes the matcher backtrack. *)
Fixpoint match_at (r : regex) (s : string) (caps : captures)
    (k : string -> captures -> option captures) : option captures :=
  match r with
  | Lit l =>
      match match_lit l s with
      | Some s' => k s' caps
      | None => None
      end
  | Rep cls lo hi => match_rep cls lo hi s (fun s' => k s' caps)
  | Seq r1 r2 => match_at r1 s caps (fun s' caps' => match_at r2 s' caps' k)
  | Alt r1 r2 =>
      match match_at r1 s caps k with
      | Some m => Some m
      | None => match_at r2 s caps k
      end
  | Opt r1 =>
      match match_at r1 s caps k with
      | Some m => Some m
      | None => k s caps
      end
  | Group n r1 =>
      match_at r1 s caps
        (fun s' caps' =>
           k s' (<[n := String.substring 0 (String.length s - String.length s') s]> caps'))
  end.

(** [re.search(r, s)] *)
Fixpoint search (r : regex) (s : string) : option captures :=
  match match_at r s ∅ (fun _ caps => Some caps) with
  | Some m => Some m
  | None =>
      match s with
      | EmptyString => None
      | String _ s' => search r s'
      end
  end.

(** [m.group(n)] *)
Definition group (m : captures) (n : nat) : option string := m !! n.

(** [[A-Z]] and [[a-z]] under [re.I]: the ASCII letters. *)
Definition letter (c : ascii) : bool := is_ascii_upper c || is_ascii_lower c.

End Re.

(** ** [scripts/watch.py] *)

Module Watch.

Import Difflib Re.

(** How a write to a file ends.  [Path.write_text] and [open(EVENTS, "a")]
    open the file before they write.  A write that fails in [open] leaves
    the file as it was.  One that fails later has created the file, and
    emptied it unless it is an append; the file then holds what reached it
    of the text, which may be nothing. *)
Inductive Write :=
| Written                              (* the whole text is in the file *)
| Refused                              (* [open] raised *)
| Broken (partial : string).           (* the write raised after [open] *)

(** What the run reads from outside: the HTTP client and the text
    extractor, the clock, the SHA-1 digest, the three settings of the
    environment, and how the three writes of a recording end. *)
Record Env := {
  http_get : string -> option string;  (* the page of a URL; [None]: the request raised *)
  extract : string -> option string;   (* [trafilatura.extract]; [None]: nothing extracted *)
  time_str : string;                   (* [str(time.time())] *)
  time_int : Z;                        (* [int(time.time())] *)
  sha1_hexdigest : string -> string;
  SLACK_WEBHOOK : option string;
  REPO : option string;
  GITHUB_TOKEN : option string;
  snapshot_write : Write;              (* [snap_path.write_text(after)] *)
  diff_write : Write;                  (* [diff_file.write_text(diff_text)] *)
  log_append : Write                   (* [f.write(json.dumps(event) + "\n")] *)
}.

(** [x or ""] and the truth of an optional string. *)
Definition or_empty (x : option string) : string := default "" x.
Definition truthy (x : option string) : bool :=
  match x with
  | Some (String _ _) => true
  | _ => false
  end.

(** The two calls that normalise the extracted text. *)
Definition normalize (text : string) : string := strip (collapse_ws text).

Definition fetch_text (env : Env) (url : string) : option string :=
  match http_get env url with
  | None => None
  | Some html =>
      let text := or_empty (extract env html) in
      Some (normalize text)
  end.

(** A line of the diff that counts towards the magnitude. *)
Definition counted (l : string) : bool :=
  startswith_any ["+"; "-"] l && negb (startswith_any ["+++"; "---"] l).

Definition NL : string := String LF EmptyString.

(** The dash of the notification title, U+2014. *)
Definition EM_DASH : N := 8212%N.

Definition meaningful_delta (a b : string) : bool * string * nat :=
  let a_lines := split a in
  let b_lines := split b in
  let ratio := quick_ratio a_lines b_lines in
  let diff := unified_diff (splitlines a) (splitlines b) in
  let diff_text := join NL diff in
  let magnitude := length (filter (fun l => counted l = true) (splitlines diff_text)) in
  let changed :=
    Qltb ratio 0.995 && (120 <? len diff_text)%nat && (8 <? magnitude)%nat in
  (changed, diff_text, magnitude).

Definition CATS : list (string * list string) :=
  [ ("pricing", ["price"; "pricing"; "fee"; "charge"; "cost"; "tier"; "billing"]);
    ("data_usage", ["data"; "collect"; "share"; "retain"; "store"; "process"; "retention"]);
    ("ip_ai_training", ["train"; "training"; "ai"; "model"; "license"; "ip"]);
    ("deprecation", ["deprecat"; "sunset"; "remove"; "eol"; "replacement"; "migrate"]);
    ("rate_limits", ["rate limit"; "quota"; "rpm"; "rps"; "requests per"; "throughput"]);
    ("acceptable_use", ["prohibited"; "abuse"; "spam"; "illegal"; "malware"; "harmful"]);
    ("privacy", ["privacy"; "gdpr"; "ccpa"; "pii"; "data subject"; "controller"; "processor"]) ].

Record Meta := {
  category : string;
  severity : string;
  tldr : list N;                       (* the key ["tl;dr"], as code points *)
  effective_date : option string
}.

(** [(effective|starts|applies)\s+(on|from)?\s*([A-Z][a-z]+\s+\d{1,2},\s*\d{4}|\d{4}-\d{2}-\d{2})]
    compiled with [re.I]. *)
Definition date_pattern : regex :=
  Seq (Group 1 (Alt (Lit "effective") (Alt (Lit "starts") (Lit "applies"))))
 (Seq (Rep isspace 1 None)
 (Seq (Opt (Group 2 (Alt (Lit "on") (Lit "from"))))
 (Seq (Rep isspace 0 None)
      (Group 3
         (Alt (Seq (Rep letter 1 (Some 1%nat))
              (Seq (Rep letter 1 None)
              (Seq (Rep isspace 1 None)
              (Seq (Rep isdigit 1 (Some 2%nat))
              (Seq (Lit ",")
              (Seq (Rep isspace 0 None)
                   (Rep isdigit 4 (Some 4%nat))))))))
              (Seq (Rep isdigit 4 (Some 4%nat))
              (Seq (Lit "-")
              (Seq (Rep isdigit 2 (Some 2%nat))
              (Seq (Lit "-")
                   (Rep isdigit 2 (Some 2%nat))))))))))).

(** [sum(1 for k in kws if k in text)] *)
Definition count_hits (kws : list string) (text : string) : nat :=
  length (filter (fun k => contains k text = true) kws).

(** The body of the loop over [CATS.items()]. *)
Definition best_step (text : string) (st : string * nat) (entry : string * list string)
    : string * nat :=
  let '(category, best_hits) := st in
  let '(cat, kws) := entry in
  let hits := count_hits kws text in
  if (best_hits <? hits)%nat then (cat, hits) else (category, best_hits).

(** The text the keywords are looked up in. *)
Definition search_text (after diff_text : string) : string :=
  let changed_text :=
    join " " (map drop1
                  (filter (fun l => startswith_any ["+"; "-"] l = true)
                          (splitlines diff_text))) in
  lower (after +:+ " " +:+ changed_text).

Definition severity_of (best_hits : nat) : string :=
  if (5 <=? best_hits)%nat then "critical"
  else if (3 <=? best_hits)%nat then "high"
  else if (2 <=? best_hits)%nat then "medium"
  else "low".

Definition classify (before after diff_text : string) : Meta :=
  let text := search_text after diff_text in
  let '(category, best_hits) := foldl (best_step text) ("privacy", 0%nat) CATS in
  let sev := severity_of best_hits in
  let eff :=
    match search date_pattern after with
    | Some m => group m 3
    | None => None
    end in
  let tl := title (replace_char "_" " " category) ++ points " change detected" in
  {| category := category; severity := sev; tldr := tl; effective_date := eff |}.

(** The colour table of [post_slack]; [None] is Python's [KeyError]. *)
Definition slack_color (severity : string) : option string :=
  list_to_map (M := gmap string string)
    [("low", "#8ea6c9"); ("medium", "#f2c744"); ("high", "#f29f05"); ("critical", "#d73a49")]
    !! severity.

Record SlackPayload := {
  color : string;
  sp_title : list N;                   (* code points, as is [text] *)
  title_link : string;
  text : list N
}.

(** What [post_slack] hands to the webhook: nothing without a webhook,
    [None] when the colour lookup raises. *)
Definition post_slack (env : Env) (title summary : list N) (url severity : string)
    : option (list SlackPayload) :=
  if negb (truthy (SLACK_WEBHOOK env)) then Some []
  else
    match slack_color severity with
    | None => None
    | Some color =>
        Some [ {| color := color; sp_title := title; title_link := url; text := summary |} ]
    end.

(** What [create_issue] hands to the issue tracker: title and body. *)
Definition create_issue (env : Env) (title body : list N) : list (list N * list N) :=
  if negb (truthy (GITHUB_TOKEN env) && truthy (REPO env)) then []
  else [(title, body)].

Record Source := {
  src_vendor : string;
  src_slug : string;
  src_type : string;
  src_url : string
}.

Record Event := {
  ts : Z;
  vendor : string;
  slug : string;
  type_ : string;
  url : string;
  diff_file : string;
  magnitude : nat;
  meta : Meta
}.

(** What was appended to [data/events.jsonl], in the order of the file: the
    line of an event, written in full, or what a failed append left of a
    line. *)
Inductive LogItem :=
| Line (e : Event)
| Fragment (partial : string).

(** The files under [data/] and what went out to the notifiers. *)
Record World := {
  snapshots : gmap string string;      (* [data/snapshots/<name>] *)
  diffs : gmap string string;          (* [data/diffs/<name>] *)
  log : list LogItem;                  (* [data/events.jsonl] *)
  slack_posts : list SlackPayload;
  issues : list (list N * list N)
}.

Definition event_of (i : LogItem) : option Event :=
  match i with
  | Line e => Some e
  | Fragment _ => None
  end.

(** The event records of the log: the lines that appends wrote in full, the
    newest last. *)
Definition events (w : World) : list Event := omap event_of (log w).

Definition set_snapshot (name text : string) (w : World) : World :=
  {| snapshots := <[name := text]> (snapshots w); diffs := diffs w;
     log := log w; slack_posts := slack_posts w; issues := issues w |}.

Definition set_diff (name text : string) (w : World) : World :=
  {| snapshots := snapshots w; diffs := <[name := text]> (diffs w);
     log := log w; slack_posts := slack_posts w; issues := issues w |}.

Definition append_log (i : LogItem) (w : World) : World :=
  {| snapshots := snapshots w; diffs := diffs w;
     log := log w ++ [i]; slack_posts := slack_posts w; issues := issues w |}.

Definition append_event (e : Event) (w : World) : World := append_log (Line e) w.

Definition notify (posts : list SlackPayload) (tickets : list (list N * list N))
    (w : World) : World :=
  {| snapshots := snapshots w; diffs := diffs w; log := log w;
     slack_posts := slack_posts w ++ posts; issues := issues w ++ tickets |}.

(** How the body of the loop of [run] ends for one source.  [Raised] is an
    exception no handler of [run] catches: it ends the run. *)
Inductive Outcome :=
| FetchFailed
| NoChange
| Recorded (e : Event)
| Raised.

(** The body of the loop of [run] for the source [s].  The three writes of
    a recording follow one another with no handler around them and nothing
    that undoes an earlier one: the first that fails ends the step, and the
    run, with what it and the writes before it left in the files.

    The names of the files are the strings the code builds from the slug and
    the type; [pathlib] would drop an empty piece or a single dot of a slug
    that holds slashes, which is not modelled.  The snapshot is taken to be
    readable and the path of the diff to lie under the root: a run in which
    [read_text] or [relative_to] raises is outside the model, and nothing
    below says that a run ends without an exception. *)
Definition process_source (env : Env) (w : World) (s : Source) : World * Outcome :=
  let vendor := src_vendor s in
  let slug := src_slug s in
  let typ := src_type s in
  let url := src_url s in
  let key := slug +:+ "-" +:+ typ in
  let snap_path := key +:+ ".txt" in
  let before := or_empty (snapshots w !! snap_path) in
  match fetch_text env url with
  | None => (w, FetchFailed)
  | Some after =>
      let '(changed, diff_text, magnitude) := meaningful_delta before after in
      if negb changed then (w, NoChange)
      else
        match snapshot_write env with
        | Refused => (w, Raised)
        | Broken partial => (set_snapshot snap_path partial w, Raised)
        | Written =>
        let w := set_snapshot snap_path after w in
        let h := String.substring 0 12 (sha1_hexdigest env (time_str env +:+ url)) in
        let diff_name := key +:+ "-" +:+ h +:+ ".diff" in
        match diff_write env with
        | Refused => (w, Raised)
        | Broken partial => (set_diff diff_name partial w, Raised)
        | Written =>
          let w := set_diff diff_name diff_text w in
          let meta := classify before after diff_text in
          let event :=
            {| ts := time_int env; vendor := vendor; slug := slug; type_ := typ;
               url := url; diff_file := "data/diffs/" +:+ diff_name;
               magnitude := magnitude; meta := meta |} in
          match log_append env with
          | Refused => (w, Raised)
          | Broken partial => (append_log (Fragment partial) w, Raised)
          | Written =>
            let w := append_event event w in
            let title :=
              points vendor ++ points " " ++ title typ ++ points " update "
                ++ [EM_DASH] ++ points " " ++ upper (severity meta) in
            let summary :=
              tldr meta ++ points ". " ++
              (if truthy (effective_date meta)
               then points ("Effective " +:+ or_empty (effective_date meta)) else []) in
            match post_slack env title summary url (severity meta) with
            | None => (w, Raised)
            | Some posts =>
                let issue_body :=
                  summary ++ points (NL +:+ NL +:+ "Diff: ./" +:+ diff_file event +:+ NL
                                        +:+ "Source: " +:+ url) in
                (notify posts (create_issue env title issue_body) w, Recorded event)
            end
          end
        end
        end
  end.

(** [run()] over the sources of the configuration, each with the
    environment it meets; the run ends at the first exception. *)
Fixpoint run (w : World) (work : list (Env * Source)) : World * list Outcome :=
  match work with
  | [] => (w, [])
  | (env, s) :: rest =>
      let '(w', o) := process_source env w s in
      match o with
      | Raised => (w', [o])
      | _ => let '(w'', os) := run w' rest in (w'', o :: os)
      end
  end.

End Watch.

(** ** [scripts/build_site.py] *)

Module BuildSite.

Import Watch.

(** [html.escape(s)] *)
Definition escape_char (c : ascii) : string :=
  let n := ord c in
  if (n =? 38)%N then "&amp;"
  else if (n =? 60)%N then "&lt;"
  else if (n =? 62)%N then "&gt;"
  else if (n =? 34)%N then "&quot;"
  else if (n =? 39)%N then "&#x27;"
  else String c EmptyString.

Fixpoint escape (s : string) : string :=
  match s with
  | EmptyString => EmptyString
  | String c s' => escape_char c +:+ escape s'
  end.

(** [p.split("/")]: the pieces of [p] between its slashes. *)
Fixpoint split_slash (p : string) : list string :=
  match p with
  | EmptyString => [EmptyString]
  | String c p' =>
      if Ascii.eqb c "/" then EmptyString :: split_slash p'
      else
        match split_slash p' with
        | [] => [String c EmptyString]
        | x :: xs => String c x :: xs
        end
  end.

(** The pieces [pathlib] keeps as the parts of a POSIX path: those that are
    neither empty nor a single dot. *)
Definition is_part (x : string) : bool :=
  negb (String.eqb x "") && negb (String.eqb x ".").

Definition parts (p : string) : list string :=
  filter (fun x => is_part x = true) (split_slash p).

(** [Path(p).name] on POSIX: the last part of the path, and [""] for a path
    without parts. *)
Definition name (p : string) : string := List.last (parts p) "".

(** [events.sort(key=lambda e: e["ts"], reverse=True)]: descending time
    stamps, events of one time stamp in the order they had. *)
Fixpoint insert_desc (e : Event) (l : list Event) : list Event :=
  match l with
  | [] => [e]
  | x :: l' => if ts x <=? ts e then e :: l else x :: insert_desc e l'
  end.

Definition sort_desc (l : list Event) : list Event := foldr insert_desc [] l.

(** What a path names: a file with the text it reads as, a file that does
    not read as text, or a directory. *)
Inductive Entry :=
| File (content : string)
| Binary
| Directory.

#[global] Instance Entry_eq_dec : EqDecision Entry.
Proof. solve_decision. Defined.

(** [DOCS / "diffs" / n] cannot name a file: it is [docs/diffs] itself or
    its parent. *)
Definition names_directory (n : string) : bool :=
  String.eqb n "" || String.eqb n "..".

(** The body of the loop that copies the diffs.  [files !! p] is what
    [ROOT / p] names and [docs !! n] what [docs/diffs/n] names.  [None] is
    an exception: [read_text] raises on a directory and on a file that is
    no text, and [write_text] on a path that names a directory.  A write
    that the file system breaks off is not modelled here: the statements
    about this script say what holds once the page is written, which is
    after every copy. *)
Definition copy_diff (files docs : gmap string Entry) (e : Event)
    : option (gmap string Entry) :=
  match files !! diff_file e with
  | None => Some docs
  | Some Binary | Some Directory => None
  | Some (File content) =>
      let n := name (diff_file e) in
      if names_directory n then None
      else
        match docs !! n with
        | Some Directory => None
        | _ => Some (<[n := File content]> docs)
        end
  end.

(** The loop over the events: what [docs/diffs] holds when it ends, and
    whether it ended without an exception. *)
Fixpoint copy_loop (files docs : gmap string Entry) (events : list Event)
    : gmap string Entry * bool :=
  match events with
  | [] => (docs, true)
  | e :: events' =>
      match copy_diff files docs e with
      | None => (docs, false)
      | Some docs' => copy_loop files docs' events'
      end
  end.

Record Site := {
  docs_diffs : gmap string Entry;      (* [docs/diffs/<name>] *)
  index_html : option string           (* [docs/index.html], when it is written *)
}.

Section Renderer.

(** [time.strftime("%Y-%m-%d %H:%M", time.gmtime(ts))], and the fixed markup
    of the page before and after the rows of the table. *)
Variable strftime_gmtime : Z -> string.
Variables page_head page_tail : string.

Definition MIDDLE_DOT : string := String (chr 183) EmptyString.

Definition row (e : Event) : string :=
  let when := strftime_gmtime (ts e) in
  let link := "diffs/" +:+ name (diff_file e) in
  "<tr><td>" +:+ when +:+ "</td><td>" +:+ escape (vendor e)
    +:+ "</td><td>" +:+ escape (type_ e)
    +:+ "</td><td>" +:+ escape (severity (meta e))
    +:+ "</td><td><a href='" +:+ escape (url e) +:+ "'>source</a> "
    +:+ MIDDLE_DOT +:+ " <a href='" +:+ link +:+ "'>diff</a></td></tr>".

(** The rows of the table of [html_page]. *)
Definition table_rows (events : list Event) : list string := map row events.

Definition html_page (events : list Event) : string :=
  page_head +:+ join "" (table_rows events) +:+ page_tail.

(** The script: [lines] are the lines of [data/events.jsonl] as
    [json.loads] reads them, [None] where it raises.  An exception in the
    loop ends the script before the page is written. *)
Definition build_site (lines : list (option Event)) (files docs : gmap string Entry)
    : Site :=
  let events := omap id lines in
  let events := sort_desc events in
  let '(docs, finished) := copy_loop files docs (take 200 events) in
  {| docs_diffs := docs;
     index_html := if finished then Some (html_page events) else None |}.

End Renderer.

End BuildSite.

(** ** Predicates of the statements *)

Module Spec.

Import Difflib Watch.

(** Every character of [s] satisfies [p]. *)
Fixpoint all_chars (p : ascii -> bool) (s : string) : bool :=
  match s with
  | EmptyString => true
  | String c s' => p c && all_chars p s'
  end.



(** No keyword of any category occurs in [text]. *)
Definition keyword_free (text : string) : bool :=
  forallb (fun entry : string * list string =>
             forallb (fun k => negb (contains k text)) entry.2) CATS.

(** The path of the snapshot of a source inside [data/snapshots]. *)
Definition snap_path_of (s : Source) : string :=
  (src_slug s +:+ "-" +:+ src_type s) +:+ ".txt".

(** The name of the diff of a source inside [data/diffs], in the
    environment [env]. *)
Definition diff_name_of (env : Env) (s : Source) : string :=
  (src_slug s +:+ "-" +:+ src_type s) +:+ "-"
    +:+ String.substring 0 12 (sha1_hexdigest env (time_str env +:+ src_url s))
    +:+ ".diff".


(** The step for a source ended without a recording and without an
    exception. *)
Definition skipped (o : Outcome) : Prop := o = NoChange \/ o = FetchFailed.

(** The three results of [meaningful_delta]. *)
Definition is_meaningful (r : bool * string * nat) : bool := r.1.1.
Definition diff_of (r : bool * string * nat) : string := r.1.2.
Definition magnitude_of (r : bool * string * nat) : nat := r.2.

(** Stated from the specification: the lines of a unified diff that are
    additions or deletions, the two header lines left out.  The header
    lines are the first two lines of the diff; every later line that starts
    with [+] or [-] adds or removes a line of content. *)
Definition changed_lines (diff : list string) : nat :=
  length (filter (fun l => startswith_any ["+"; "-"] l = true) (drop 2 diff)).

End Spec.

(** ** The inputs of the scenarios *)

Module Scenario.

Import Watch.

Definition before1 : string := "".
Definition after1 : string := "Our pricing is $10/month.".

Definition before2 : string := "Service is provided as-is.".
Definition after2 : string :=
  "Service is provided as-is. We may terminate your account for any reason without notice, effective January 1, 2025.".

(** A world with nothing stored. *)
Definition empty_world : World :=
  {| snapshots := ∅; diffs := ∅; log := []; slack_posts := []; issues := [] |}.

(** An environment in which every page holds [text], no notifier is set up
    and no write fails. *)
Definition serving (text : string) : Env :=
  {| http_get := fun _ => Some "<html></html>";
     extract := fun _ => Some text;
     time_str := "1700000000.0";
     time_int := 1700000000;
     sha1_hexdigest := fun _ => "da39a3ee5e6b4b0d3255bfef95601890afd80709";
     SLACK_WEBHOOK := None;
     REPO := None;
     GITHUB_TOKEN := None;
     snapshot_write := Written;
     diff_write := Written;
     log_append := Written |}.

Definition acme_pricing : Source :=
  {| src_vendor := "Acme"; src_slug := "acme"; src_type := "pricing";
     src_url := "https://acme.example/pricing" |}.

End Scenario.

(** ** A recording whose diff cannot be written *)

Module Recording.

Import Watch Scenario.

(** A snapshot of nine lines, as a file under [data/snapshots] may hold. *)
Definition old_snapshot : string :=
  join NL [ "Basic plan: 5 dollars per month";
            "Team plan: 10 dollars per month";
            "Business plan: 20 dollars per month";
            "Storage: 1 dollar per gigabyte";
            "Support: included";
            "Billing: monthly";
            "Refunds: within 30 days";
            "Taxes: not included";
            "Contact: sales" ].

Definition new_text : string := "All plans are now billed per seat.".

Definition stale_world : World :=
  set_snapshot "acme-pricing.txt" old_snapshot empty_world.

(** The environment [serving text], except that the write of the diff
    fails after it has created the file: the diff is left empty. *)
Definition diff_disk_full (text : string) : Env :=
  {| http_get := http_get (serving text);
     extract := extract (serving text);
     time_str := time_str (serving text);
     time_int := time_int (serving text);
     sha1_hexdigest := sha1_hexdigest (serving text);
     SLACK_WEBHOOK := None;
     REPO := None;
     GITHUB_TOKEN := None;
     snapshot_write := Written;
     diff_write := Broken "";
     log_append := Written |}.

End Recording.

(** ** A snapshot whose lines start with two dashes *)

Module Dashes.

Import Watch Scenario.

(** Nine lines as a file under [data/snapshots] may hold them, each
    starting with two dashes. *)
Definition dashed_snapshot : string :=
  join NL [ "-- Basic plan: 5 dollars per month";
            "-- Team plan: 10 dollars per month";
            "-- Business plan: 20 dollars per month";
            "-- Storage: 1 dollar per gigabyte";
            "-- Support: included";
            "-- Billing: monthly";
            "-- Refunds: within 30 days";
            "-- Taxes: not included";
            "-- Contact: sales" ].

Definition dashed_world : World :=
  set_snapshot "acme-pricing.txt" dashed_snapshot empty_world.

End Dashes.

(** ** Counting occurrences *)

Module Count.

(** How often [x] occurs in [l]. *)
Fixpoint occurrences {T : Type} `{EqDecision T} (x : T) (l : list T) : Z :=
  match l with
  | [] => 0
  | y :: l' => (if decide (y = x) then 1 else 0) + occurrences x l'
  end.

End Count.

(** ** Texts without line feed that [str.splitlines] still splits *)

Module Separators.

Import Recording.



End Separators.

(** ** An event log of 201 events *)

Module Feed.

Import Watch BuildSite.

(** The event recorded at time [i], with a diff of its own. *)
Definition event_at (i : Z) : Event :=
  {| ts := i; vendor := "Acme"; slug := "acme"; type_ := "pricing";
     url := "https://acme.example/pricing";
     diff_file := "data/diffs/acme-pricing-" +:+ pretty i +:+ ".diff";
     magnitude := 10;
     meta := {| category := "pricing"; severity := "low";
                tldr := points "Pricing change detected"; effective_date := None |} |}.

(** The times 0, 1, ..., 200 in the order of the log. *)
Definition log201 : list (option Event) :=
  map (fun i => Some (event_at i)) (seqZ 0 201).

(** Every diff the log refers to is on disk. *)
Definition files201 : gmap string Entry :=
  list_to_map
    (map (fun i => (diff_file (event_at i), File ("diff " +:+ pretty i))) (seqZ 0 201)).

End Feed.

(** ** The rounds of the work list *)

Module Rounds.

Import Difflib.

(** A block that lies between [alo] and [ahi] in [a]. *)
Definition within (alo ahi : Z) (best : block) : Prop :=
  alo <= best.1.1 /\ best.1.1 + best.2 <= ahi /\ 0 <= best.2.

(** Every length of [j2len] is between 1 and [n]. *)
Definition lens_upto (n : Z) (j2len : gmap Z Z) : Prop :=
  map_Forall (fun _ v => 1 <= v <= n) j2len.

(** The rounds a region and a queue of regions need at most. *)
Definition region_rounds (r : Z * Z * Z * Z) : nat :=
  let '(alo, ahi, _, _) := r in (2 * Z.to_nat (ahi - alo) + 1)%nat.

Definition queue_rounds (queue : list (Z * Z * Z * Z)) : nat :=
  foldr (fun r n => (region_rounds r + n)%nat) 0%nat queue.

Definition ordered (r : Z * Z * Z * Z) : Prop :=
  let '(alo, ahi, _, _) := r in alo <= ahi.

End Rounds.

(** ** Predicates of the statements about the site *)

Module SiteSpec.

Import Watch BuildSite.

(** The characters that open or close markup or an attribute. *)
Definition is_markup (c : ascii) : bool :=
  let n := ord c in ((n =? 60) || (n =? 62) || (n =? 34) || (n =? 39))%N.

(** A piece of a path that is no part of it: it is empty or a single dot. *)
Definition no_part (x : string) : Prop := x = "" \/ x = ".".

(** [x] is listed before [y] when it is not older. *)
Definition newer_first (x y : Event) : Prop := ts y <= ts x.

(** The events of [l] with the time stamp [t], in their order. *)
Definition at_time (t : Z) (l : list Event) : list Event :=
  filter (fun e => ts e = t) l.



End SiteSpec.

(** ** Predicates of the statements about the classifier *)

Module ClassifySpec.

Import Watch.

(** [cat] is the first category of the table [cats] whose keywords reach
    the highest hit count [n] in [text]. *)
Definition first_best (text : string) (cats : list (string * list string))
    (cat : string) (n : nat) : Prop :=
  exists pre kws post,
    cats = pre ++ (cat, kws) :: post
    /\ count_hits kws text = n
    /\ forall entry, entry ∈ pre -> (count_hits entry.2 text < n)%nat.

(** No category of [cats] has more than [n] hits in [text]. *)
Definition at_most_hits (text : string) (cats : list (string * list string))
    (n : nat) : Prop :=
  forall entry, entry ∈ cats -> (count_hits entry.2 text <= n)%nat.

End ClassifySpec.

(** ** Predicates of the statements about the date pattern *)

Module DateSpec.

Import Re.

(** [s'] is what is left of [s] after some of its first characters. *)
Definition is_suffix (s' s : string) : Prop := exists pre, s = pre +:+ s'.

(** [s] holds no decimal digit. *)
Definition digit_free (s : string) : bool :=
  Spec.all_chars (fun c => negb (isdigit c)) s.

(** Every group of [caps] holds a piece of [text]. *)
Definition captured_from (text : string) (caps : captures) : Prop :=
  forall n d, caps !! n = Some d -> contains d text = true.

(** [r] matches no text without a digit, whatever follows it. *)
Definition needs_digit (r : regex) : Prop :=
  forall s caps k, digit_free s = true -> match_at r s caps k = None.

End DateSpec.

(** ** Predicates of the statements about the run *)

Module RunSpec.

Import Watch.

(** Every key of [m] is a key of [m']. *)
Definition keeps_keys (m m' : gmap string string) : Prop :=
  forall k, is_Some (m !! k) -> is_Some (m' !! k).

(** From [w] to [w'] nothing was removed: the log and what went to the
    notifiers were only appended to, and no snapshot or diff is gone. *)
Definition grows (w w' : World) : Prop :=
  events w `prefix_of` events w'
  /\ slack_posts w `prefix_of` slack_posts w'
  /\ issues w `prefix_of` issues w'
  /\ keeps_keys (snapshots w) (snapshots w')
  /\ keeps_keys (diffs w) (diffs w').

(** The event [e] refers to a diff that is stored in [w], was flagged with
    a magnitude above 8, and its source has a snapshot in [w]. *)
Definition backed (w : World) (e : Event) : Prop :=
  (exists diff_name,
      diff_file e = "data/diffs/" +:+ diff_name /\ is_Some (diffs w !! diff_name))
  /\ (8 < magnitude e)%nat
  /\ is_Some (snapshots w !! ((slug e +:+ "-" +:+ type_ e) +:+ ".txt")).

(** The events of the outcomes that are recordings. *)
Definition recorded_events (os : list Outcome) : list Event :=
  omap (fun o => match o with Recorded e => Some e | _ => None end) os.

(** The keys of the colour table of [post_slack]. *)
Definition color_keys : list string := ["low"; "medium"; "high"; "critical"].

End RunSpec.

(** ** The normal form of a fetched text *)

Module NormalForm.

(** Every white-space character of [s] is a plain space that no white space
    follows. *)
Fixpoint single_spaced (s : string) : bool :=
  match s with
  | EmptyString => true
  | String c s' =>
      (if isspace c
       then Ascii.eqb c " " && negb (starts_with_char isspace s')
       else true)
      && single_spaced s'
  end.

(** The last character of [s] is white space. *)
Fixpoint ends_with_space (s : string) : bool :=
  match s with
  | EmptyString => false
  | String c EmptyString => isspace c
  | String _ s' => ends_with_space s'
  end.

(** Words separated by one plain space each, and nothing around them. *)
Definition normalized (s : string) : bool :=
  single_spaced s && negb (starts_with_char isspace s) && negb (ends_with_space s).

End NormalForm.

(** ** Taking one occurrence out of a list *)

Module Remove.

(** [l] without the first occurrence of [x]. *)
Fixpoint remove_one {T : Type} `{EqDecision T} (x : T) (l : list T) : list T :=
  match l with
  | [] => []
  | y :: l' => if decide (y = x) then l' else y :: remove_one x l'
  end.

(** What is still available of [b] in the loop of [quick_ratio]: [rem]
    holds the elements of [b] that no element of [a] has been matched
    with. *)
Definition tracks {T : Type} `{Countable T} (fb avail : gmap T Z) (rem : list T) : Prop :=
  forall x, (0 < Difflib.numb_of fb avail x ->
             Difflib.numb_of fb avail x = Count.occurrences x rem)
            /\ (Difflib.numb_of fb avail x <= 0 -> Count.occurrences x rem = 0).

End Remove.

(** ** The scan of a sequence against itself *)

Module Diagonal.
Import Difflib.
Section Defs.
Context {T : Type} `{Countable T}.

(** The indices, from [off] on, at which [x] occurs in [l]. *)
Fixpoint positions (x : T) (l : list T) (off : Z) : list Z :=
  match l with
  | [] => []
  | y :: l' => (if decide (y = x) then [off] else []) ++ positions x l' (off + 1)
  end.

(** The length of the run of elements [b2j] knows that ends just before the
    index [i] of [l]. *)
Fixpoint run_before (b2j : gmap T (list Z)) (l : list T) (i : nat) : Z :=
  match i with
  | O => 0
  | S i' =>
      match l !! i' with
      | Some x => if decide (is_Some (b2j !! x)) then run_before b2j l i' + 1 else 0
      | None => 0
      end
  end.

(** The length of the run that ends at the index [j]. *)
Definition run_at (b2j : gmap T (list Z)) (l : list T) (j : Z) : Z :=
  run_before b2j l (Z.to_nat (j + 1)).

(** The lengths of a row of the scan: none exceeds the run of its column or
    the run of the row [i]. *)
Definition lens_below (b2j : gmap T (list Z)) (l : list T) (i : Z)
    (j2len : gmap Z Z) : Prop :=
  forall j v, j2len !! j = Some v ->
    1 <= v /\ v <= run_at b2j l j /\ v <= run_at b2j l i.

(** A cell off the diagonal of the row [i] whose length cannot exceed
    [size]. *)
Definition cell_ok (b2j : gmap T (list Z)) (l : list T) (i size j : Z) : Prop :=
  0 <= j /\ run_at b2j l j = run_at b2j l (j - 1) + 1 /\ j <> i
  /\ Z.min (run_at b2j l j) (run_at b2j l i) <= size.

(** What holds before the row [i] of the scan of [l] against itself: the best
    block lies on the diagonal and is as long as the longest run so far. *)
Definition row_inv (b2j : gmap T (list Z)) (l : list T) (i : Z)
    (st : gmap Z Z * block) : Prop :=
  lens_below b2j l (i - 1) st.1
  /\ default 0 (st.1 !! (i - 1)) = run_at b2j l (i - 1)
  /\ st.2.1.1 = st.2.1.2 /\ 0 <= st.2.1.1 /\ st.2.1.1 + st.2.2 <= i /\ 0 <= st.2.2
  /\ (forall r, 0 <= r < i -> run_at b2j l r <= st.2.2).

End Defs.
End Diagonal.

(** ** What a run sends to the notifiers *)

Module Notified.

Import Watch.

(** The environment names a Slack webhook. *)
Definition has_webhook (env : Env) : bool := truthy (SLACK_WEBHOOK env).

(** The environment names the issue tracker: a token and a repository. *)
Definition has_tracker (env : Env) : bool :=
  truthy (GITHUB_TOKEN env) && truthy (REPO env).

(** One for a recording in an environment that satisfies [f]. *)
Definition sent (f : Env -> bool) (env : Env) (o : Outcome) : nat :=
  match o with
  | Recorded _ => if f env then 1 else 0
  | _ => 0
  end.

(** The recordings among the outcomes [os] of the sources [work] whose
    environment satisfies [f]. *)
Fixpoint notified (f : Env -> bool) (work : list (Env * Source)) (os : list Outcome)
    {struct os} : nat :=
  match os, work with
  | o :: os', (env, _) :: work' => sent f env o + notified f work' os'
  | _, _ => 0
  end.

End Notified.

(** * Properties *)

Import PyStr.

Example splitlines_ex1 :
  splitlines ("ab" +:+ String CR (String LF "cd" +:+ String LF "")) = ["ab"; "cd"].
Proof. reflexivity. Qed.

Example splitlines_ex2 : splitlines (String LF (String LF "b")) = [""; ""; "b"].
Proof. reflexivity. Qed.

Example split_ex1 : split "  a bc   d " = ["a"; "bc"; "d"].
Proof. reflexivity. Qed.

Example collapse_ex1 : strip (collapse_ws ("  a " +:+ String LF " b  ")) = "a b".
Proof. reflexivity. Qed.

Example diff_ex1 : Difflib.unified_diff ["a"; "b"; "c"] ["a"; "x"; "c"; "d"] =
  ["--- "; "+++ "; "@@ -1,3 +1,4 @@"; " a"; "-b"; "+x"; " c"; "+d"].
Proof. vm_compute. reflexivity. Qed.

Import Difflib Re Watch BuildSite Spec.

(** ** Facts about the string builtins *)

Section StringFacts.

Lemma all_chars_app p s t :
  all_chars p (s +:+ t) = all_chars p s && all_chars p t.
Proof.
  induction s as [|c s IH]; simpl; [reflexivity|].
  rewrite IH. apply andb_assoc.
Qed.


Lemma LF_is_linebreak : is_linebreak LF = true.
Proof. reflexivity. Qed.



End StringFacts.

(** ** The evaluator's policy *)

Section Policy.

Lemma Qltb_lt (x y : Q) : Qltb x y = true <-> (x < y)%Q.
Proof.
  unfold Qltb. rewrite negb_true_iff. split.
  - intros Hb. apply Qnot_le_lt. intros Hle.
    apply Qle_bool_iff in Hle. congruence.
  - intros Hlt. destruct (Qle_bool y x) eqn:Hb; [|reflexivity].
    apply Qle_bool_iff in Hb. exfalso. exact (Qlt_not_le _ _ Hlt Hb).
Qed.



(** The three comparisons of the evaluator: the flag is set exactly when the
    similarity ratio of the word tokens is below 0.995, the text of the
    unified diff is longer than 120 characters, and more than 8 lines of
    that text start with a plus or a minus sign and with neither three plus
    nor three minus signs. *)
Lemma flag_is_three_comparisons (before after : string) :
  let diff_text := join NL (unified_diff (splitlines before) (splitlines after)) in
  is_meaningful (meaningful_delta before after) = true <->
    (quick_ratio (split before) (split after) < 0.995)%Q
    /\ (120 < len diff_text)%nat
    /\ (8 < length (filter (fun l => counted l = true) (splitlines diff_text)))%nat.
Proof.
  unfold is_meaningful, meaningful_delta. simpl.
  rewrite !andb_true_iff, Qltb_lt, !Nat.ltb_lt. tauto.
Qed.

End Policy.

(** ** The classifier *)

Section Classifier.

Lemma severity_of_cases n :
  severity_of n = "low" \/ severity_of n = "medium"
  \/ severity_of n = "high" \/ severity_of n = "critical".
Proof.
  unfold severity_of.
  destruct (5 <=? n)%nat; [tauto|].
  destruct (3 <=? n)%nat; [tauto|].
  destruct (2 <=? n)%nat; tauto.
Qed.

Lemma classify_severity before after diff_text :
  exists n, severity (classify before after diff_text) = severity_of n.
Proof.
  unfold classify.
  destruct (foldl _ _ CATS) as [cat n]. exists n. reflexivity.
Qed.

(** C10.  The severity the classifier returns is one of the four keys of the
    colour table of [post_slack], so the lookup finds a colour and
    [post_slack] does not raise on it. *)
Theorem classify_severity_has_color (before after diff_text : string) :
  let sev := severity (classify before after diff_text) in
  (sev = "low" \/ sev = "medium" \/ sev = "high" \/ sev = "critical")
  /\ is_Some (slack_color sev)
  /\ forall env title summary url, is_Some (post_slack env title summary url sev).
Proof.
  destruct (classify_severity before after diff_text) as [n Hn].
  cbv zeta. rewrite Hn.
  assert (Hc : is_Some (slack_color (severity_of n))).
  { destruct (severity_of_cases n) as [H|[H|[H|H]]]; rewrite H;
      vm_compute; eauto. }
  split; [apply severity_of_cases|]. split; [exact Hc|].
  intros env ttl summary u. unfold post_slack.
  destruct (negb _); [eauto|].
  destruct Hc as [c Hc]. rewrite Hc. eauto.
Qed.

Lemma count_hits_none kws text :
  forallb (fun k => negb (contains k text)) kws = true ->
  count_hits kws text = 0%nat.
Proof.
  unfold count_hits. induction kws as [|k kws IH]; [reflexivity|].
  simpl. intros H. apply andb_prop in H as [Hk Hks].
  apply negb_true_iff in Hk.
  rewrite filter_cons. destruct (decide (contains k text = true)) as [Hc|_].
  - congruence.
  - apply IH, Hks.
Qed.

Lemma best_step_none text cats cat :
  forallb (fun entry : string * list string =>
             forallb (fun k => negb (contains k text)) entry.2) cats = true ->
  foldl (best_step text) (cat, 0%nat) cats = (cat, 0%nat).
Proof.
  induction cats as [|[c kws] cats IH]; [reflexivity|].
  simpl. intros H. apply andb_prop in H as [Hk Hcats].
  rewrite (count_hits_none _ _ Hk). simpl. apply IH, Hcats.
Qed.

(** [keyword_free] says that no keyword of the table is in the text. *)
Lemma keyword_free_spec text :
  keyword_free text = true <->
  forall cat kws k, (cat, kws) ∈ CATS -> k ∈ kws -> contains k text = false.
Proof.
  unfold keyword_free. rewrite forallb_forall. split.
  - intros Hall cat kws k Hc Hk.
    apply list_elem_of_In in Hc. specialize (Hall _ Hc). cbn [snd] in Hall.
    rewrite forallb_forall in Hall.
    apply negb_true_iff, Hall, list_elem_of_In, Hk.
  - intros Hall [cat kws] Hc. cbn [snd]. apply forallb_forall. intros k Hk.
    apply negb_true_iff. apply (Hall cat kws k); apply list_elem_of_In; assumption.
Qed.

(** C8.  When no keyword of any category occurs in the search text, the
    severity is ["low"] and the category is the default, ["privacy"]. *)
Theorem no_keyword_low_default (before after diff_text : string) :
  keyword_free (search_text after diff_text) = true ->
  severity (classify before after diff_text) = "low"
  /\ category (classify before after diff_text) = "privacy".
Proof.
  intros H. unfold classify.
  rewrite (best_step_none _ _ _ H). split; reflexivity.
Qed.

Lemma no_keyword_low_default_witness :
  keyword_free (search_text "Hello world" "") = true
  /\ severity (classify "" "Hello world" "") = "low"
  /\ category (classify "" "Hello world" "") = "privacy".
Proof.
  split; [vm_compute; reflexivity|].
  apply (no_keyword_low_default "" "Hello world" "").
  vm_compute. reflexivity.
Defined.

End Classifier.

(** ** The scenarios of the specification *)

Section Scenarios.

Import Scenario.

(** C6, as stated: the evaluator's flag is not set for the second
    scenario. *)
Lemma scenario2_as_stated_fails :
  ~ (is_meaningful (meaningful_delta before2 after2) = true
     /\ effective_date (classify before2 after2 (diff_of (meaningful_delta before2 after2)))
        = Some "January 1, 2025").
Proof. vm_compute. intros [H _]. discriminate H. Qed.

(** C6, amended.  For the second scenario the diff is one removed and one
    added line, so the magnitude is 2 and the change is not flagged; the
    classifier finds the effective date ["January 1, 2025"]. *)
Theorem scenario2_magnitude_and_date :
  meaningful_delta before2 after2
    = (false,
       join NL ["--- "; "+++ "; "@@ -1 +1 @@"; "-" +:+ before2; "+" +:+ after2],
       2%nat)
  /\ effective_date (classify before2 after2 (diff_of (meaningful_delta before2 after2)))
     = Some "January 1, 2025".
Proof. split; vm_compute; reflexivity. Qed.

(** C3 at a snapshot of nine lines that start with two dashes and a
    fetched text of one line: the similarity ratio is below 0.995, the text
    of the diff is longer than 120 characters and the diff removes nine
    lines and adds one, which are 10 changed lines; the evaluator counts a
    magnitude of 1, does not flag the change, and the step for the source
    records nothing. *)
Theorem dashed_lines_not_flagged :
  let diff := unified_diff (splitlines Dashes.dashed_snapshot)
                           (splitlines Recording.new_text) in
  (quick_ratio (split Dashes.dashed_snapshot) (split Recording.new_text) < 0.995)%Q
  /\ (120 < len (join NL diff))%nat
  /\ changed_lines diff = 10%nat
  /\ meaningful_delta Dashes.dashed_snapshot Recording.new_text
     = (false, join NL diff, 1%nat)
  /\ process_source (serving Recording.new_text) Dashes.dashed_world acme_pricing
     = (Dashes.dashed_world, NoChange).
Proof.
  cbv zeta. split; [apply Qltb_lt; vm_compute; reflexivity|].
  split; [apply Nat.ltb_lt; vm_compute; reflexivity|].
  split; [vm_compute; reflexivity|].
  split; vm_compute; reflexivity.
Qed.

(** C4 at a text whose only line starts with two plus signs: the diff adds
    one line and the magnitude is 0. *)
Theorem magnitude_misses_plus_plus_line :
  meaningful_delta "" "++y"
    = (false, join NL ["--- "; "+++ "; "@@ -0,0 +1 @@"; "+++y"], 0%nat)
  /\ changed_lines (splitlines (diff_of (meaningful_delta "" "++y"))) = 1%nat.
Proof. split; vm_compute; reflexivity. Qed.

End Scenarios.
(** ** The run *)

Section Run.

Import Scenario Recording.

Lemma process_source_not_meaningful env w s after :
  fetch_text env (src_url s) = Some after ->
  is_meaningful (meaningful_delta (or_empty (snapshots w !! snap_path_of s)) after) = false ->
  process_source env w s = (w, NoChange).
Proof.
  unfold process_source, snap_path_of, is_meaningful. intros -> Hm.
  destruct (meaningful_delta _ after) as [[changed diff_text] magnitude].
  simpl in Hm. subst changed. reflexivity.
Qed.

Lemma scenario1_delta :
  meaningful_delta before1 after1
  = (false, join NL ["--- "; "+++ "; "@@ -0,0 +1 @@"; "+" +:+ after1], 1%nat).
Proof. vm_compute. reflexivity. Qed.

(** C5, as stated: the run of the first scenario appends no event to the
    log. *)
Lemma scenario1_as_stated_fails :
  ~ (exists e, e ∈ events (run empty_world [(serving after1, acme_pricing)]).1
               /\ category (meta e) = "pricing").
Proof.
  assert (E : events (run empty_world [(serving after1, acme_pricing)]).1 = [])
    by (vm_compute; reflexivity).
  rewrite E. intros [e [He _]]. inversion He.
Qed.

(** C5, amended.  With no snapshot stored and the text of the first
    scenario fetched, the diff adds one line, the change is not flagged, and
    the step for the source leaves every file as it was, so that no event is
    recorded; the classifier, given these texts and their diff, answers
    ["pricing"]. *)
Theorem scenario1_no_event_pricing (env : Env) (w : World) (s : Source) :
  snapshots w !! snap_path_of s = None ->
  fetch_text env (src_url s) = Some after1 ->
  is_meaningful (meaningful_delta before1 after1) = false
  /\ magnitude_of (meaningful_delta before1 after1) = 1%nat
  /\ process_source env w s = (w, NoChange)
  /\ category (classify before1 after1 (diff_of (meaningful_delta before1 after1)))
     = "pricing".
Proof.
  intros Hsnap Hfetch.
  split; [rewrite scenario1_delta; reflexivity|].
  split; [rewrite scenario1_delta; reflexivity|].
  split; [|vm_compute; reflexivity].
  apply process_source_not_meaningful with (after := after1); [exact Hfetch|].
  rewrite Hsnap. change (or_empty None) with before1.
  rewrite scenario1_delta. reflexivity.
Qed.

Lemma scenario1_no_event_pricing_witness :
  snapshots empty_world !! snap_path_of acme_pricing = None
  /\ fetch_text (serving after1) (src_url acme_pricing) = Some after1
  /\ process_source (serving after1) empty_world acme_pricing = (empty_world, NoChange).
Proof.
  assert (H1 : snapshots empty_world !! snap_path_of acme_pricing = None)
    by (vm_compute; reflexivity).
  assert (H2 : fetch_text (serving after1) (src_url acme_pricing) = Some after1)
    by (vm_compute; reflexivity).
  split; [exact H1|]. split; [exact H2|].
  exact (proj1 (proj2 (proj2
           (scenario1_no_event_pricing (serving after1) empty_world acme_pricing H1 H2)))).
Defined.

Lemma events_set_snapshot n t w : events (set_snapshot n t w) = events w.
Proof. reflexivity. Qed.

Lemma events_set_diff n t w : events (set_diff n t w) = events w.
Proof. reflexivity. Qed.

Lemma events_append_event e w : events (append_event e w) = events w ++ [e].
Proof. unfold events. cbn [append_event append_log log]. rewrite omap_app. reflexivity. Qed.

Lemma events_append_fragment partial w : events (append_log (Fragment partial) w) = events w.
Proof.
  unfold events. cbn [append_log log]. rewrite omap_app. cbn. apply app_nil_r.
Qed.

Lemma events_notify posts tickets w : events (notify posts tickets w) = events w.
Proof. reflexivity. Qed.

(** What the step does when the change is flagged and the snapshot is
    written but the diff is not: the snapshot holds the new text, and the
    diff is as the failed write left it. *)
Lemma process_source_diff_write_fails env w s after :
  fetch_text env (src_url s) = Some after ->
  is_meaningful (meaningful_delta (or_empty (snapshots w !! snap_path_of s)) after) = true ->
  snapshot_write env = Written ->
  diff_write env <> Written ->
  process_source env w s
  = (match diff_write env with
     | Broken partial =>
         set_diff (diff_name_of env s) partial (set_snapshot (snap_path_of s) after w)
     | _ => set_snapshot (snap_path_of s) after w
     end, Raised).
Proof.
  unfold process_source, snap_path_of, diff_name_of, is_meaningful. intros -> Hm -> Hd.
  destruct (meaningful_delta _ after) as [[changed diff_text] magnitude].
  simpl in Hm. subst changed. cbn [negb].
  destruct (diff_write env); [congruence | reflexivity | reflexivity].
Qed.

(** C1, as stated: a step in which the change is flagged and the diff cannot
    be written, after which the snapshot of the source is not the one
    stored before. *)
Lemma recorder_as_stated_fails :
  let w := stale_world in
  let w' := (process_source (diff_disk_full new_text) stale_world acme_pricing).1 in
  is_meaningful (meaningful_delta old_snapshot new_text) = true
  /\ diff_write (diff_disk_full new_text) = Broken ""
  /\ snapshots w !! snap_path_of acme_pricing = Some old_snapshot
  /\ snapshots w' !! snap_path_of acme_pricing = Some new_text
  /\ snapshots w' !! snap_path_of acme_pricing <> snapshots w !! snap_path_of acme_pricing.
Proof.
  cbv zeta.
  assert (L : snapshots (process_source (diff_disk_full new_text) stale_world acme_pricing).1
                !! snap_path_of acme_pricing = Some new_text).
  { rewrite (process_source_diff_write_fails _ _ _ new_text);
      [|vm_compute; reflexivity | vm_compute; reflexivity | reflexivity | discriminate].
    cbn [fst diff_write diff_disk_full snapshots set_diff set_snapshot].
    apply lookup_insert_eq. }
  assert (R : snapshots stale_world !! snap_path_of acme_pricing = Some old_snapshot).
  { unfold stale_world. cbn [snapshots set_snapshot].
    change (snap_path_of acme_pricing) with "acme-pricing.txt".
    apply lookup_insert_eq. }
  split; [vm_compute; reflexivity|]. split; [reflexivity|].
  split; [exact R|]. split; [exact L|].
  rewrite L, R. vm_compute. discriminate.
Qed.

(** C1, amended.  The snapshot is written first and nothing undoes it: when
    the change is flagged, the snapshot is written and the write of the diff
    then fails, the step raises and nothing is appended to the log, so that
    no event record is added, but the snapshot of the source already holds
    the new text. *)
Theorem diff_write_failure_keeps_log (env : Env) (w : World) (s : Source) (after : string) :
  fetch_text env (src_url s) = Some after ->
  is_meaningful (meaningful_delta (or_empty (snapshots w !! snap_path_of s)) after) = true ->
  snapshot_write env = Written ->
  diff_write env <> Written ->
  let w' := (process_source env w s).1 in
  (process_source env w s).2 = Raised
  /\ log w' = log w
  /\ events w' = events w
  /\ snapshots w' = <[snap_path_of s := after]> (snapshots w).
Proof.
  intros Hf Hm Hs Hd.
  rewrite (process_source_diff_write_fails env w s after Hf Hm Hs Hd).
  cbv zeta. cbn [fst snd].
  destruct (diff_write env); repeat split; reflexivity.
Qed.

Lemma diff_write_failure_keeps_log_witness :
  (process_source (diff_disk_full new_text) stale_world acme_pricing).2 = Raised
  /\ events (process_source (diff_disk_full new_text) stale_world acme_pricing).1 = []
  /\ snapshots (process_source (diff_disk_full new_text) stale_world acme_pricing).1
       !! snap_path_of acme_pricing = Some new_text.
Proof.
  pose proof (diff_write_failure_keeps_log (diff_disk_full new_text) stale_world
                acme_pricing new_text) as H.
  destruct H as (Ho & _ & He & Hs).
  - vm_compute. reflexivity.
  - vm_compute. reflexivity.
  - reflexivity.
  - discriminate.
  - split; [exact Ho|]. split; [exact He|].
    rewrite Hs. apply lookup_insert_eq.
Defined.

(** What is left of the diff when its write fails: nothing new when the
    file could not be opened, and otherwise a file of the diff's name with
    what reached it. *)
Lemma diff_write_failure_leaves env w s after :
  fetch_text env (src_url s) = Some after ->
  is_meaningful (meaningful_delta (or_empty (snapshots w !! snap_path_of s)) after) = true ->
  snapshot_write env = Written ->
  (diff_write env = Refused -> diffs (process_source env w s).1 = diffs w)
  /\ (forall partial, diff_write env = Broken partial ->
        diffs (process_source env w s).1 = <[diff_name_of env s := partial]> (diffs w)).
Proof.
  intros Hf Hm Hs. split.
  - intros Hd. rewrite (process_source_diff_write_fails env w s after Hf Hm Hs) by congruence.
    rewrite Hd. reflexivity.
  - intros partial Hd.
    rewrite (process_source_diff_write_fails env w s after Hf Hm Hs) by congruence.
    rewrite Hd. reflexivity.
Qed.

End Run.

(** ** The quick ratio of a sequence with itself *)

Section QuickRatio.

Import Count.

Context {T : Type} `{Countable T}.

Lemma occurrences_nonneg (x : T) l : 0 <= occurrences x l.
Proof. induction l as [|y l IH]; simpl; [lia|]. destruct (decide (y = x)); lia. Qed.

Lemma fullbcount_lookup (b : list T) (fb : gmap T Z) (x : T) :
  default 0 (foldl count_step fb b !! x) = default 0 (fb !! x) + occurrences x b.
Proof.
  revert fb. induction b as [|y b IH]; intros fb; simpl; [lia|].
  rewrite IH. unfold count_step.
  destruct (decide (y = x)) as [->|Hne].
  - rewrite lookup_insert_eq. simpl. lia.
  - rewrite lookup_insert_ne by exact Hne. lia.
Qed.

Lemma numb_of_insert (fb avail : gmap T Z) (elt : T) (v : Z) (x : T) :
  numb_of fb (<[elt := v]> avail) x
  = if decide (elt = x) then v else numb_of fb avail x.
Proof.
  unfold numb_of. destruct (decide (elt = x)) as [->|Hne].
  - rewrite lookup_insert_eq. reflexivity.
  - rewrite lookup_insert_ne by exact Hne. reflexivity.
Qed.

(** When enough of every element is still available, every element of the
    rest of [a] is a match. *)
Lemma avail_all_match (fb : gmap T Z) (rest : list T) (avail : gmap T Z) (matches : Z) :
  (forall x, occurrences x rest <= numb_of fb avail x) ->
  (foldl (avail_step fb) (avail, matches) rest).2 = matches + Z.of_nat (length rest).
Proof.
  revert avail matches. induction rest as [|elt rest IH]; intros avail matches Hav.
  - simpl. lia.
  - cbn [foldl avail_step].
    pose proof (Hav elt) as He. simpl in He.
    destruct (decide (elt = elt)) as [_|Hne]; [|congruence].
    pose proof (occurrences_nonneg elt rest) as Hpos.
    replace (0 <? numb_of fb avail elt) with true by (symmetry; apply Z.ltb_lt; lia).
    rewrite IH.
    + rewrite length_cons. lia.
    + intros x. rewrite numb_of_insert.
      pose proof (Hav x) as Hx. simpl in Hx.
      destruct (decide (elt = x)) as [->|Hne]; lia.
Qed.

Lemma quick_ratio_matches_self (a : list T) :
  (foldl (avail_step (foldl count_step ∅ a)) (∅, 0) a).2 = Z.of_nat (length a).
Proof.
  rewrite avail_all_match; [lia|].
  intros x. unfold numb_of. rewrite lookup_empty.
  rewrite fullbcount_lookup, lookup_empty. simpl. lia.
Qed.

Lemma calculate_ratio_full (n : Z) : 0 <= n -> (_calculate_ratio n (n + n) == 1)%Q.
Proof.
  intros Hn. unfold _calculate_ratio.
  destruct (n + n =? 0) eqn:E; [reflexivity|].
  apply Z.eqb_neq in E.
  rewrite inject_Z_plus. field.
  intros H0. apply E.
  rewrite <- inject_Z_plus in H0.
  unfold Qeq in H0. simpl in H0. lia.
Qed.

Lemma quick_ratio_self (a : list T) : (quick_ratio a a == 1)%Q.
Proof.
  unfold quick_ratio. rewrite quick_ratio_matches_self.
  apply calculate_ratio_full. lia.
Qed.

End QuickRatio.

Section Identical.

(** C7.  Identical texts are never a meaningful change. *)
Theorem identical_not_meaningful (before after : string) :
  before = after ->
  is_meaningful (meaningful_delta before after) = false.
Proof.
  intros ->. unfold is_meaningful, meaningful_delta. cbn [fst].
  replace (Qltb (quick_ratio (split after) (split after)) 0.995) with false;
    [reflexivity|].
  symmetry. apply not_true_is_false. intros Hlt.
  apply Qltb_lt in Hlt. rewrite quick_ratio_self in Hlt.
  revert Hlt. apply Qle_not_lt. discriminate.
Qed.

Lemma identical_not_meaningful_witness :
  is_meaningful (meaningful_delta Scenario.before2 Scenario.before2) = false.
Proof. apply (identical_not_meaningful Scenario.before2 Scenario.before2). reflexivity. Defined.

End Identical.

(** ** The rounds of [get_matching_blocks] suffice *)

Section RoundsSuffice.

Import Rounds.
Context {T : Type} `{Countable T}.

Lemma scan_js_within blo bhi alo n j2len :
  0 <= n -> lens_upto n j2len ->
  forall js newj2len best,
    lens_upto (n + 1) newj2len -> within alo (alo + n + 1) best ->
    lens_upto (n + 1) (scan_js blo bhi (alo + n) j2len js newj2len best).1
    /\ within alo (alo + n + 1) (scan_js blo bhi (alo + n) j2len js newj2len best).2.
Proof.
  intros Hn Hj. induction js as [|j js IH]; intros newj2len best Hnew Hbest.
  - cbn [scan_js fst snd]. split; assumption.
  - cbn [scan_js].
    destruct (j <? blo); [apply IH; assumption|].
    destruct (bhi <=? j); [cbn [fst snd]; split; assumption|].
    assert (Hk : 1 <= default 0 (j2len !! (j - 1)) + 1 <= n + 1).
    { destruct (j2len !! (j - 1)) as [v|] eqn:Hv; simpl; [|lia].
      pose proof (map_Forall_lookup_1 _ _ _ _ Hj Hv) as Hb. cbn beta in Hb. lia. }
    apply IH.
    + apply map_Forall_insert_2; [exact Hk | exact Hnew].
    + destruct best as [[besti bestj] bestsize].
      destruct (bestsize <? _); [|exact Hbest].
      unfold within. cbn [fst snd]. lia.
Qed.

Lemma within_weaken alo ahi ahi' best : ahi <= ahi' -> within alo ahi best -> within alo ahi' best.
Proof. unfold within. lia. Qed.

Lemma scan_fold_within (a : list T) b2j alo blo bhi (n : nat) :
  let st := foldl (scan_i a b2j blo bhi) (∅, (alo, blo, 0)) (seqZ alo (Z.of_nat n)) in
  lens_upto (Z.of_nat n) st.1 /\ within alo (alo + Z.of_nat n) st.2.
Proof.
  induction n as [|n IH].
  - change (seqZ alo (Z.of_nat 0)) with (@nil Z). cbv zeta. cbn [foldl fst snd].
    split; [apply map_Forall_empty|]. unfold within. cbn [fst snd]. lia.
  - cbv zeta in *.
    replace (Z.of_nat (S n)) with (Z.of_nat n + 1) by lia.
    rewrite seqZ_app by lia. rewrite foldl_app.
    change (seqZ (alo + Z.of_nat n) 1) with [alo + Z.of_nat n].
    cbn [foldl].
    destruct (foldl _ _ (seqZ alo (Z.of_nat n))) as [j2len best].
    cbn [fst snd] in IH. destruct IH as [Hj Hb].
    unfold scan_i.
    rewrite Z.add_assoc.
    apply scan_js_within; [lia | exact Hj | apply map_Forall_empty |].
    apply (within_weaken _ (alo + Z.of_nat n)); [lia | exact Hb].
Qed.

Lemma scan_within (a : list T) b2j alo ahi blo bhi :
  alo <= ahi -> within alo ahi (scan a b2j alo ahi blo bhi).
Proof.
  intros Hle. unfold scan.
  pose proof (scan_fold_within a b2j alo blo bhi (Z.to_nat (ahi - alo))) as Hs.
  cbv zeta in Hs. rewrite Z2Nat.id in Hs by lia.
  replace (alo + (ahi - alo)) with ahi in Hs by lia. apply Hs.
Qed.

Lemma extend_left_within room junk (a b : list T) alo ahi blo best :
  within alo ahi best -> within alo ahi (extend_left room junk a b alo blo best).
Proof.
  revert best. induction room as [|room IH]; intros [[besti bestj] bestsize] Hb; [exact Hb|].
  cbn [extend_left].
  destruct (alo <? besti) eqn:E1; cbn [andb]; [|exact Hb].
  destruct (_ && _); [|exact Hb].
  apply IH. apply Z.ltb_lt in E1. unfold within in *. cbn [fst snd] in *. lia.
Qed.

Lemma extend_right_within room junk (a b : list T) alo ahi bhi best :
  within alo ahi best -> within alo ahi (extend_right room junk a b ahi bhi best).
Proof.
  revert best. induction room as [|room IH]; intros [[besti bestj] bestsize] Hb; [exact Hb|].
  cbn [extend_right].
  destruct (besti + bestsize <? ahi) eqn:E1; cbn [andb]; [|exact Hb].
  destruct (_ && _); [|exact Hb].
  apply IH. apply Z.ltb_lt in E1. unfold within in *. cbn [fst snd] in *. lia.
Qed.

(** More room than [room_left] and [room_right] give changes nothing: the
    loops stop on their own conditions. *)
Lemma extend_left_room junk (a b : list T) alo blo extra : forall room best,
  room_left alo best = room ->
  extend_left (room + extra) junk a b alo blo best
  = extend_left room junk a b alo blo best.
Proof.
  induction room as [|room IH]; intros [[besti bestj] bestsize] Hr.
  - unfold room_left in Hr. cbn [fst snd] in Hr.
    destruct extra as [|extra]; [reflexivity|].
    cbn [Nat.add extend_left].
    replace (alo <? besti) with false by (symmetry; apply Z.ltb_ge; lia).
    reflexivity.
  - cbn [Nat.add extend_left].
    destruct (_ && _); [|reflexivity].
    apply IH. unfold room_left in *. cbn [fst snd] in *. lia.
Qed.

Lemma extend_right_room junk (a b : list T) ahi bhi extra : forall room best,
  room_right ahi best = room ->
  extend_right (room + extra) junk a b ahi bhi best
  = extend_right room junk a b ahi bhi best.
Proof.
  induction room as [|room IH]; intros [[besti bestj] bestsize] Hr.
  - unfold room_right in Hr. cbn [fst snd] in Hr.
    destruct extra as [|extra]; [reflexivity|].
    cbn [Nat.add extend_right].
    replace (besti + bestsize <? ahi) with false by (symmetry; apply Z.ltb_ge; lia).
    reflexivity.
  - cbn [Nat.add extend_right].
    destruct (_ && _); [|reflexivity].
    apply IH. unfold room_right in *. cbn [fst snd] in *. lia.
Qed.

Lemma find_longest_match_within (a b : list T) b2j alo ahi blo bhi :
  alo <= ahi -> within alo ahi (find_longest_match a b b2j alo ahi blo bhi).
Proof.
  intros Hle. unfold find_longest_match, extend.
  apply extend_right_within, extend_left_within, extend_right_within, extend_left_within.
  apply scan_within, Hle.
Qed.

Lemma matching_loop_empties (a b : list T) b2j rounds :
  forall queue mb,
    Forall ordered queue -> (queue_rounds queue <= rounds)%nat ->
    (matching_loop rounds a b b2j queue mb).2 = [].
Proof.
  induction rounds as [|rounds IH]; intros queue mb Hq Hr.
  - destruct queue as [|[[[alo ahi] blo] bhi] queue]; [reflexivity|].
    cbn [queue_rounds foldr region_rounds] in Hr. lia.
  - destruct queue as [|[[[alo ahi] blo] bhi] queue]; [reflexivity|].
    cbn [matching_loop].
    apply Forall_cons in Hq as [Hle Hq]. cbn [ordered] in Hle.
    cbn [queue_rounds foldr region_rounds] in Hr. fold (queue_rounds queue) in Hr.
    pose proof (find_longest_match_within a b b2j alo ahi blo bhi Hle) as Hw.
    destruct (find_longest_match a b b2j alo ahi blo bhi) as [[i j] k].
    unfold within in Hw. cbn [fst snd] in Hw.
    destruct (k =? 0) eqn:Ek; [apply IH; [exact Hq | lia]|].
    apply Z.eqb_neq in Ek.
    apply IH.
    + destruct ((i + k <? ahi) && (j + k <? bhi));
        destruct ((alo <? i) && (blo <? j));
        repeat (apply Forall_cons; split); try exact Hq; cbn [ordered]; lia.
    + destruct ((i + k <? ahi) && (j + k <? bhi));
        destruct ((alo <? i) && (blo <? j));
        cbn [queue_rounds foldr region_rounds]; fold (queue_rounds queue); lia.
Qed.

(** The loop of [get_matching_blocks] ends with an empty queue within the
    rounds it is given: the blocks it returns are those of the Python loop. *)
Theorem get_matching_blocks_rounds_suffice (a b : list T) :
  (matching_loop (rounds_for a) a b (chain_b b)
     [(0, Z.of_nat (length a), 0, Z.of_nat (length b))] []).2 = [].
Proof.
  apply matching_loop_empties.
  - apply Forall_cons; split; [cbn [ordered]; lia | constructor].
  - cbn [queue_rounds foldr region_rounds]. unfold rounds_for. lia.
Qed.

End RoundsSuffice.

(** ** The diff of sequences of at most one line *)

Section ShortSequences.
Context {T : Type} `{Countable T}.






Lemma flm_nil_l (b : list T) b2j bhi : find_longest_match [] b b2j 0 0 0 bhi = (0, 0, 0).
Proof. reflexivity. Qed.


Lemma matching_loop_nil n (a b : list T) b2j mb :
  matching_loop n a b b2j [] mb = (mb, []).
Proof. destruct n; reflexivity. Qed.

Lemma matching_loop_step n (a b : list T) b2j alo ahi blo bhi queue mb i j k :
  find_longest_match a b b2j alo ahi blo bhi = (i, j, k) ->
  matching_loop (S n) a b b2j ((alo, ahi, blo, bhi) :: queue) mb =
  if k =? 0 then matching_loop n a b b2j queue mb
  else
    matching_loop n a b b2j
      (let queue := if (alo <? i) && (blo <? j) then (alo, i, blo, j) :: queue else queue in
       if (i + k <? ahi) && (j + k <? bhi) then (i + k, ahi, j + k, bhi) :: queue else queue)
      (mb ++ [(i, j, k)]).
Proof. intros E. cbn [matching_loop]. rewrite E. reflexivity. Qed.

Lemma blocks_nil_nil : get_matching_blocks (@nil T) [] = [(0, 0, 0)].
Proof. reflexivity. Qed.

Lemma blocks_nil_single (y : T) : get_matching_blocks [] [y] = [(0, 1, 0)].
Proof. reflexivity. Qed.




Lemma grouped_nil_nil : get_grouped_opcodes 3 (@nil T) [] = [].
Proof. reflexivity. Qed.

Lemma grouped_nil_single (y : T) : get_grouped_opcodes 3 [] [y] = [[(Insert, 0, 0, 0, 1)]].
Proof. reflexivity. Qed.




End ShortSequences.

Section ShortDiffs.






End ShortDiffs.

(** ** Texts without line boundaries *)

Section SingleLine.

Import Scenario Recording Separators.


Lemma space_no_linebreak : is_linebreak " " = false.
Proof. reflexivity. Qed.










End SingleLine.

(** ** The pipeline on fetched texts *)

Section Pipeline.

Import Scenario Recording Separators.






End Pipeline.

(** ** The site renderer *)

Section Site.

Import Feed.

Variable strftime_gmtime : Z -> string.
Variables page_head page_tail : string.

Lemma build_site_page lines files docs :
  index_html (build_site strftime_gmtime page_head page_tail lines files docs)
  = if (copy_loop files docs (take 200 (sort_desc (omap id lines)))).2
    then Some (page_head
                 +:+ join "" (map (row strftime_gmtime) (sort_desc (omap id lines)))
                 +:+ page_tail)
    else None.
Proof.
  unfold build_site. destruct (copy_loop _ _ _) as [docs' finished]. reflexivity.
Qed.

Lemma build_site_copies lines files docs :
  docs_diffs (build_site strftime_gmtime page_head page_tail lines files docs)
  = (copy_loop files docs (take 200 (sort_desc (omap id lines)))).1.
Proof.
  unfold build_site. destruct (copy_loop _ _ _) as [docs' finished]. reflexivity.
Qed.

(** C9 at a log of 201 events whose diffs are all on disk: the table has
    201 rows, the oldest event among them, while 200 diffs are copied and
    the diff of the oldest event is not. *)
Theorem table_holds_every_event :
  let site := build_site strftime_gmtime page_head page_tail log201 files201 ∅ in
  let shown := sort_desc (omap id log201) in
  index_html site
  = Some (page_head +:+ join "" (table_rows strftime_gmtime shown) +:+ page_tail)
  /\ length (table_rows strftime_gmtime shown) = 201%nat
  /\ last shown = Some (event_at 0)
  /\ length (take 200 shown) = 200%nat
  /\ size (docs_diffs site) = 200%nat
  /\ is_Some (files201 !! diff_file (event_at 0))
  /\ docs_diffs site !! name (diff_file (event_at 0)) = None.
Proof.
  cbv zeta.
  assert (Hfin : (copy_loop files201 ∅ (take 200 (sort_desc (omap id log201)))).2 = true)
    by (vm_compute; reflexivity).
  split; [rewrite build_site_page, Hfin; reflexivity|].
  split; [unfold table_rows; rewrite length_map; vm_compute; reflexivity|].
  split; [vm_compute; reflexivity|].
  split; [vm_compute; reflexivity|].
  rewrite build_site_copies.
  split; [vm_compute; reflexivity|].
  split; [vm_compute; eauto|].
  vm_compute. reflexivity.
Qed.

End Site.

(** * Further properties of the code *)

(** ** The renderer's helpers *)

Section SiteHelpers.

Import SiteSpec.

Lemma escape_char_no_markup c :
  all_chars (fun d => negb (is_markup d)) (escape_char c) = true.
Proof. destruct c as [[] [] [] [] [] [] [] []]; vm_compute; reflexivity. Qed.

(** X1.  The text [html.escape] returns holds no angle bracket and no
    quote. *)
Theorem escape_no_markup (s : string) :
  all_chars (fun d => negb (is_markup d)) (escape s) = true.
Proof.
  induction s as [|c s IH]; [reflexivity|].
  cbn [escape]. rewrite all_chars_app, escape_char_no_markup, IH. reflexivity.
Qed.

Example name_ex1 : name "data/diffs/acme-pricing-0.diff" = "acme-pricing-0.diff".
Proof. reflexivity. Qed.

Example name_ex2 : name "data/diffs/gone/" = "gone" /\ name "data/diffs/." = "diffs".
Proof. split; reflexivity. Qed.

Example name_ex3 : name "/" = "" /\ name "a/.." = "..".
Proof. split; reflexivity. Qed.

Lemma split_slash_cons p : exists x xs, split_slash p = x :: xs.
Proof.
  induction p as [|c p (x & xs & IH)]; [eauto|].
  cbn [split_slash]. destruct (Ascii.eqb c "/"); [eauto|]. rewrite IH. eauto.
Qed.

Lemma join_cons_cons sep x y l : join sep (x :: y :: l) = x +:+ sep +:+ join sep (y :: l).
Proof. reflexivity. Qed.

Lemma join_split_slash p : join "/" (split_slash p) = p.
Proof.
  induction p as [|c p IH]; [reflexivity|].
  cbn [split_slash]. destruct (split_slash_cons p) as (x & xs & Hx).
  rewrite Hx in *. destruct (Ascii.eqb c "/") eqn:E.
  - apply Ascii.eqb_eq in E. subst c. rewrite join_cons_cons, IH. reflexivity.
  - rewrite <- IH. destruct xs as [|y ys]; reflexivity.
Qed.

Lemma contains_slash_cons c x :
  contains "/" (String c x) = Ascii.eqb c "/" || contains "/" x.
Proof.
  cbn [contains startswith String.prefix].
  destruct (ascii_dec "/" c) as [<-|Hne].
  - rewrite Ascii.eqb_refl. destruct x; reflexivity.
  - replace (Ascii.eqb c "/") with false; [reflexivity|].
    symmetry. apply Ascii.eqb_neq. congruence.
Qed.

Lemma split_slash_no_slash p :
  Forall (fun x => contains "/" x = false) (split_slash p).
Proof.
  induction p as [|c p IH]; [repeat constructor|].
  cbn [split_slash]. destruct (Ascii.eqb c "/") eqn:E.
  - constructor; [reflexivity | exact IH].
  - destruct (split_slash p) as [|x xs].
    + constructor; [|constructor]. rewrite contains_slash_cons, E. reflexivity.
    + apply Forall_cons in IH as [Hx Hxs]. constructor; [|exact Hxs].
      rewrite contains_slash_cons, E, Hx. reflexivity.
Qed.

Lemma is_part_false x : is_part x = false <-> no_part x.
Proof.
  unfold is_part, no_part. rewrite andb_false_iff, !negb_false_iff, !String.eqb_eq.
  tauto.
Qed.

Lemma is_part_true x : is_part x = true <-> x <> "" /\ x <> ".".
Proof.
  unfold is_part. rewrite andb_true_iff, !negb_true_iff, !String.eqb_neq. tauto.
Qed.

(** The last element of a list that satisfies a test, and what follows it. *)
Lemma last_filter_split {A : Type} (f : A -> bool) (d : A) (l : list A) :
  (filter (fun x => f x = true) l = [] /\ Forall (fun x => f x = false) l)
  \/ (exists pre post,
        l = pre ++ List.last (filter (fun x => f x = true) l) d :: post
        /\ f (List.last (filter (fun x => f x = true) l) d) = true
        /\ Forall (fun x => f x = false) post).
Proof.
  induction l as [|x l IH]; [left; split; [reflexivity | constructor]|].
  rewrite filter_cons. destruct (decide (f x = true)) as [Hx|Hx].
  - right. destruct IH as [[Hnil Hall] | (pre & post & Hl & Hf & Hpost)].
    + rewrite Hnil. cbn [List.last]. exists [], l. split; [reflexivity|].
      split; assumption.
    + assert (Hin : List.last (filter (fun x => f x = true) l) d
                    ∈ filter (fun x => f x = true) l).
      { apply list_elem_of_filter. split; [exact Hf|].
        rewrite Hl at 2. apply elem_of_app. right. left. }
      destruct (filter (fun x => f x = true) l) as [|y ys].
      * inversion Hin.
      * change (List.last (x :: y :: ys) d) with (List.last (y :: ys) d).
        exists (x :: pre), post. split; [cbn [app]; f_equal; exact Hl|].
        split; assumption.
  - apply not_true_is_false in Hx.
    destruct IH as [[Hnil Hall] | (pre & post & Hl & Hf & Hpost)].
    + left. split; [exact Hnil | constructor; assumption].
    + right. exists (x :: pre), post. split; [cbn [app]; f_equal; exact Hl|].
      split; assumption.
Qed.

Lemma name_cases p :
  (name p = "" /\ Forall no_part (split_slash p))
  \/ (is_part (name p) = true
      /\ exists pre post, split_slash p = pre ++ name p :: post /\ Forall no_part post).
Proof.
  unfold name, parts.
  destruct (last_filter_split is_part "" (split_slash p))
    as [[Hnil Hall] | (pre & post & Hl & Hf & Hpost)].
  - left. rewrite Hnil. split; [reflexivity|].
    eapply Forall_impl; [exact Hall|]. intros x. apply is_part_false.
  - right. split; [exact Hf|]. exists pre, post. split; [exact Hl|].
    eapply Forall_impl; [exact Hpost|]. intros x. apply is_part_false.
Qed.

(** X2.  The name of a path is its last piece between slashes that is
    neither empty nor a single dot, whatever follows that piece, and it is
    empty exactly when the path has no such piece.  So the name holds no
    slash and is no single dot; and joining the pieces of a path with
    slashes gives the path back. *)
Theorem name_is_last_component (p : string) :
  join "/" (split_slash p) = p
  /\ contains "/" (name p) = false
  /\ name p <> "."
  /\ (name p = "" <-> Forall no_part (split_slash p))
  /\ (name p <> "" ->
      exists pre post, split_slash p = pre ++ name p :: post /\ Forall no_part post).
Proof.
  split; [apply join_split_slash|].
  destruct (name_cases p) as [[Hn Hall] | (Hpart & pre & post & Hl & Hpost)].
  - rewrite Hn. split; [reflexivity|]. split; [discriminate|].
    split; [tauto | congruence].
  - apply is_part_true in Hpart as [Hne Hnd].
    split; [|split; [exact Hnd|split]].
    + pose proof (split_slash_no_slash p) as Hs. rewrite Hl in Hs.
      apply Forall_app in Hs as [_ Hs]. apply Forall_cons in Hs as [Hs _]. exact Hs.
    + split; [congruence|]. intros Hall. rewrite Hl in Hall.
      apply Forall_app in Hall as [_ Hall]. apply Forall_cons in Hall as [[H|H] _];
        congruence.
    + intros _. exists pre, post. split; assumption.
Qed.

Lemma insert_desc_perm e l : Permutation (insert_desc e l) (e :: l).
Proof.
  induction l as [|x l IH]; [reflexivity|].
  cbn [insert_desc]. destruct (ts x <=? ts e); [reflexivity|].
  rewrite IH. apply perm_swap.
Qed.

Lemma insert_desc_hd e x l :
  ts e <= ts x -> HdRel newer_first x l -> HdRel newer_first x (insert_desc e l).
Proof.
  intros He Hl. destruct l as [|y l]; cbn [insert_desc].
  - constructor. exact He.
  - destruct (ts y <=? ts e); constructor; [exact He|].
    inversion Hl; assumption.
Qed.

Lemma insert_desc_sorted e l :
  Sorted newer_first l -> Sorted newer_first (insert_desc e l).
Proof.
  induction 1 as [|x l Hs IH Hh]; cbn [insert_desc].
  - repeat constructor.
  - destruct (ts x <=? ts e) eqn:E.
    + apply Z.leb_le in E. repeat constructor; assumption.
    + apply Z.leb_gt in E. constructor; [exact IH|].
      apply insert_desc_hd; [unfold newer_first in *; lia | exact Hh].
Qed.

Lemma insert_desc_at_time t e l :
  at_time t (insert_desc e l) = at_time t (e :: l).
Proof.
  unfold at_time. induction l as [|x l IH]; [reflexivity|].
  cbn [insert_desc]. destruct (ts x <=? ts e) eqn:E; [reflexivity|].
  apply Z.leb_gt in E.
  rewrite (filter_cons _ x), IH, !filter_cons.
  destruct (decide (ts x = t)) as [Hx|Hx]; destruct (decide (ts e = t)) as [He|He];
    try reflexivity.
  lia.
Qed.

(** X3.  Sorting the events loses and repeats none, lists them by time
    stamp with the newest first, and keeps the events of one time stamp in
    the order of the log. *)
Theorem sort_desc_stable_sorted (l : list Event) :
  Permutation (sort_desc l) l
  /\ Sorted newer_first (sort_desc l)
  /\ forall t, at_time t (sort_desc l) = at_time t l.
Proof.
  induction l as [|e l (IHp & IHs & IHt)].
  - split; [reflexivity|]. split; [constructor|]. intros t. reflexivity.
  - unfold sort_desc in *. cbn [foldr]. split; [|split].
    + rewrite insert_desc_perm. constructor. exact IHp.
    + apply insert_desc_sorted, IHs.
    + intros t. rewrite insert_desc_at_time. unfold at_time in *.
      rewrite !filter_cons, IHt. reflexivity.
Qed.

End SiteHelpers.

(** ** The copies of the diffs *)

Section SiteCopies.

Import SiteSpec.



Variable strftime_gmtime : Z -> string.
Variables page_head page_tail : string.


End SiteCopies.

(** ** The category the classifier picks *)

Section ClassifierChoice.

Import ClassifySpec.

Lemma best_step_fold text cats : forall c0 n0,
  let r := foldl (best_step text) (c0, n0) cats in
  (n0 <= r.2)%nat
  /\ at_most_hits text cats r.2
  /\ ((r = (c0, n0)) \/ ((n0 < r.2)%nat /\ first_best text cats r.1 r.2)).
Proof.
  induction cats as [|[c kws] cats IH]; intros c0 n0; cbv zeta.
  - cbn [foldl snd]. split; [lia|]. split; [|left; reflexivity].
    intros entry He. inversion He.
  - cbn [foldl best_step].
    destruct (n0 <? count_hits kws text)%nat eqn:E.
    + apply Nat.ltb_lt in E.
      destruct (IH c (count_hits kws text)) as (Hle & Hmax & Hcase).
      split; [lia|]. split.
      * intros entry He. apply elem_of_cons in He as [->|He]; [exact Hle | apply Hmax, He].
      * right. split; [lia|].
        destruct Hcase as [Heq | [Hlt (pre & kws' & post & Hc & Hh & Hpre)]].
        -- rewrite Heq. exists [], kws, cats. split; [reflexivity|].
           split; [reflexivity|]. intros entry He. inversion He.
        -- exists ((c, kws) :: pre), kws', post. split; [cbn [app]; f_equal; exact Hc|].
           split; [exact Hh|]. intros entry He.
           apply elem_of_cons in He as [->|He]; [exact Hlt | apply Hpre, He].
    + apply Nat.ltb_ge in E.
      destruct (IH c0 n0) as (Hle & Hmax & Hcase).
      split; [exact Hle|]. split.
      * intros entry He. apply elem_of_cons in He as [->|He]; [cbn [snd]; lia | apply Hmax, He].
      * destruct Hcase as [Heq | [Hlt (pre & kws' & post & Hc & Hh & Hpre)]];
          [left; exact Heq|].
        right. split; [exact Hlt|].
        exists ((c, kws) :: pre), kws', post. split; [cbn [app]; f_equal; exact Hc|].
        split; [exact Hh|]. intros entry He.
        apply elem_of_cons in He as [->|He]; [cbn [snd]; lia | apply Hpre, He].
Qed.

(** X5.  The classifier counts, per category, the keywords that occur in
    the search text.  With no hit at all it answers ["privacy"]; otherwise it
    answers the first category of the table that has the highest count.  The
    severity is the one of that count, and the category is always one of the
    table. *)
Theorem classify_first_best (before after diff_text : string) :
  let text := search_text after diff_text in
  let m := classify before after diff_text in
  exists n,
    severity m = severity_of n
    /\ at_most_hits text CATS n
    /\ ((n = 0%nat /\ category m = "privacy")
        \/ ((0 < n)%nat /\ first_best text CATS (category m) n))
    /\ category m ∈ map fst CATS.
Proof.
  cbv zeta. unfold classify.
  pose proof (best_step_fold (search_text after diff_text) CATS "privacy" 0%nat) as Hf.
  cbv zeta in Hf.
  destruct (foldl _ _ CATS) as [cat n]. cbn [fst snd] in Hf.
  destruct Hf as (_ & Hmax & Hcase).
  exists n. cbn [severity category]. split; [reflexivity|]. split; [exact Hmax|].
  destruct Hcase as [[= -> ->] | [Hlt Hfb]].
  - split; [left; split; reflexivity|]. vm_compute. set_solver.
  - split; [right; split; assumption|].
    destruct Hfb as (pre & kws & post & Hc & _). rewrite Hc.
    rewrite map_app. apply elem_of_app. right. left.
Qed.

End ClassifierChoice.

(** ** The effective date *)

Section EffectiveDate.

Import DateSpec.

Lemma is_suffix_refl s : is_suffix s s.
Proof. exists EmptyString. reflexivity. Qed.

Lemma string_app_assoc (s t u : string) : (s +:+ t) +:+ u = s +:+ (t +:+ u).
Proof.
  induction s as [|c s IH]; [reflexivity|].
  change (String c ((s +:+ t) +:+ u) = String c (s +:+ (t +:+ u))). f_equal. exact IH.
Qed.

Lemma is_suffix_trans s1 s2 s3 : is_suffix s1 s2 -> is_suffix s2 s3 -> is_suffix s1 s3.
Proof.
  intros [p1 ->] [p2 ->]. exists (p2 +:+ p1). symmetry. apply string_app_assoc.
Qed.

Lemma is_suffix_tail c s : is_suffix s (String c s).
Proof. exists (String c EmptyString). reflexivity. Qed.

Lemma digit_free_suffix s' s : is_suffix s' s -> digit_free s = true -> digit_free s' = true.
Proof.
  intros [pre ->]. unfold digit_free. rewrite all_chars_app.
  intros H. apply andb_prop in H as [_ H]. exact H.
Qed.

Lemma match_lit_suffix l : forall s s', match_lit l s = Some s' -> is_suffix s' s.
Proof.
  induction l as [|c l IH]; intros s s' Hm.
  - cbn in Hm. injection Hm as <-. apply is_suffix_refl.
  - destruct s as [|d s]; [discriminate|]. cbn [match_lit] in Hm.
    destruct (eqb_nocase c d); [|discriminate].
    eapply is_suffix_trans; [apply (IH _ _ Hm) | apply is_suffix_tail].
Qed.

Lemma startswith_contains k s : startswith k s = true -> contains k s = true.
Proof. destruct s; cbn [contains]; intros ->; reflexivity. Qed.

Lemma substring_prefix s : forall n, startswith (String.substring 0 n s) s = true.
Proof.
  unfold startswith. induction s as [|c s IH]; intros [|n]; cbn; try reflexivity.
  rewrite IH. destruct (Ascii.ascii_dec c c); [reflexivity | congruence].
Qed.

Lemma contains_app_r k pre s : contains k s = true -> contains k (pre +:+ s) = true.
Proof.
  intros Hk. induction pre as [|c pre IH]; [exact Hk|].
  change (contains k (String c (pre +:+ s)) = true).
  cbn [contains]. rewrite IH. apply orb_true_r.
Qed.

(** The continuation of a repetition runs on what is left of the text. *)
Lemma match_rep_inv cls s : forall lo hi k m,
  match_rep cls lo hi s k = Some m ->
  exists s', is_suffix s' s /\ k s' = Some m.
Proof.
  induction s as [|c s IH]; intros lo hi k m Hm.
  - cbn [match_rep] in Hm. destruct lo; [|discriminate].
    exists EmptyString. split; [apply is_suffix_refl | exact Hm].
  - cbn [match_rep] in Hm.
    assert (Hstop : match lo with O => k (String c s) | S _ => None end = Some m ->
                    exists s', is_suffix s' (String c s) /\ k s' = Some m).
    { destruct lo; [|discriminate]. intros Hk.
      exists (String c s). split; [apply is_suffix_refl | exact Hk]. }
    destruct (cls c && hi_allows hi); [|exact (Hstop Hm)].
    destruct (match_rep cls (Nat.pred lo) (Nat.pred <$> hi) s k) as [m'|] eqn:Hr;
      [|exact (Hstop Hm)].
    injection Hm as <-. destruct (IH _ _ _ _ Hr) as (s' & Hs & Hk).
    exists s'. split; [|exact Hk].
    eapply is_suffix_trans; [exact Hs | apply is_suffix_tail].
Qed.

(** A match hands to its continuation what is left of the text, and groups
    that hold pieces of the text when the groups before did. *)
Lemma match_at_inv text r : forall s caps k m,
  is_suffix s text -> captured_from text caps ->
  match_at r s caps k = Some m ->
  exists s' caps',
    is_suffix s' s /\ captured_from text caps' /\ k s' caps' = Some m.
Proof.
  induction r as [l | cls lo hi | r1 IH1 r2 IH2 | r1 IH1 r2 IH2 | r1 IH1 | n r1 IH1];
    intros s caps k m Hs Hc Hm; cbn [match_at] in Hm.
  - destruct (match_lit l s) as [s'|] eqn:Hl; [|discriminate].
    exists s', caps. split; [exact (match_lit_suffix _ _ _ Hl)|]. split; assumption.
  - destruct (match_rep_inv _ _ _ _ _ _ Hm) as (s' & Hs' & Hk).
    exists s', caps. split; [exact Hs'|]. split; assumption.
  - destruct (IH1 _ _ _ _ Hs Hc Hm) as (s1 & caps1 & Hs1 & Hc1 & Hk1).
    destruct (IH2 _ _ _ _ (is_suffix_trans _ _ _ Hs1 Hs) Hc1 Hk1)
      as (s2 & caps2 & Hs2 & Hc2 & Hk2).
    exists s2, caps2. split; [exact (is_suffix_trans _ _ _ Hs2 Hs1)|]. split; assumption.
  - destruct (match_at r1 s caps k) as [m1|] eqn:H1.
    + injection Hm as <-. exact (IH1 _ _ _ _ Hs Hc H1).
    + exact (IH2 _ _ _ _ Hs Hc Hm).
  - destruct (match_at r1 s caps k) as [m1|] eqn:H1.
    + injection Hm as <-. exact (IH1 _ _ _ _ Hs Hc H1).
    + exists s, caps. split; [apply is_suffix_refl|]. split; assumption.
  - destruct (IH1 _ _ _ _ Hs Hc Hm) as (s1 & caps1 & Hs1 & Hc1 & Hk1).
    exists s1, (<[n := String.substring 0 (String.length s - String.length s1) s]> caps1).
    split; [exact Hs1|]. split; [|exact Hk1].
    intros n' d Hd. unfold captures in *. destruct (decide (n = n')) as [->|Hne].
    + rewrite lookup_insert_eq in Hd. injection Hd as <-.
      destruct Hs as [pre ->].
      apply contains_app_r, startswith_contains, substring_prefix.
    + rewrite lookup_insert_ne in Hd by exact Hne. exact (Hc1 _ _ Hd).
Qed.

Lemma captured_from_empty text : captured_from text ∅.
Proof. intros n d Hd. unfold captures in *. rewrite lookup_empty in Hd. discriminate. Qed.

Lemma search_captured text r : forall s m,
  is_suffix s text -> search r s = Some m -> captured_from text m.
Proof.
  induction s as [|c s IH]; intros m Hs Hm; cbn [search] in Hm.
  - destruct (match_at r EmptyString ∅ _) as [m'|] eqn:Ha; [|discriminate].
    injection Hm as <-.
    destruct (match_at_inv text r _ _ _ _ Hs (captured_from_empty text) Ha)
      as (s' & caps' & _ & Hc & Hk).
    injection Hk as <-. exact Hc.
  - destruct (match_at r (String c s) ∅ _) as [m'|] eqn:Ha.
    + injection Hm as <-.
      destruct (match_at_inv text r _ _ _ _ Hs (captured_from_empty text) Ha)
        as (s' & caps' & _ & Hc & Hk).
      injection Hk as <-. exact Hc.
    + apply IH; [|exact Hm].
      eapply is_suffix_trans; [apply is_suffix_tail | exact Hs].
Qed.

(** X6.  A date the classifier returns is a piece of the text after the
    change. *)
Theorem effective_date_occurs (before after diff_text date : string) :
  effective_date (classify before after diff_text) = Some date ->
  contains date after = true.
Proof.
  unfold classify. destruct (foldl _ _ CATS) as [cat n]. cbn [effective_date].
  destruct (search date_pattern after) as [m|] eqn:Hs; [|discriminate].
  intros Hg. exact (search_captured after _ _ _ (is_suffix_refl _) Hs _ _ Hg).
Qed.

Lemma effective_date_occurs_witness :
  effective_date (classify Scenario.before2 Scenario.after2 "") = Some "January 1, 2025"
  /\ contains "January 1, 2025" Scenario.after2 = true.
Proof.
  assert (H : effective_date (classify Scenario.before2 Scenario.after2 "")
              = Some "January 1, 2025") by (vm_compute; reflexivity).
  split; [exact H|].
  exact (effective_date_occurs Scenario.before2 Scenario.after2 "" "January 1, 2025" H).
Defined.

End EffectiveDate.

Section DateNeedsDigit.

Import DateSpec.

Lemma match_rep_cont cls s : forall lo hi k,
  (forall s', is_suffix s' s -> k s' = None) -> match_rep cls lo hi s k = None.
Proof.
  induction s as [|c s IH]; intros lo hi k Hk; cbn [match_rep].
  - destruct lo; [apply Hk, is_suffix_refl | reflexivity].
  - assert (Hstop : match lo with O => k (String c s) | S _ => None end = None)
      by (destruct lo; [apply Hk, is_suffix_refl | reflexivity]).
    destruct (cls c && hi_allows hi); [|exact Hstop].
    rewrite IH; [exact Hstop|].
    intros s' Hs'. apply Hk.
    eapply is_suffix_trans; [exact Hs' | apply is_suffix_tail].
Qed.

(** A match fails when its continuation fails on everything that can be
    left of the text. *)
Lemma match_at_cont r : forall s caps k,
  (forall s' caps', is_suffix s' s -> k s' caps' = None) ->
  match_at r s caps k = None.
Proof.
  induction r as [l | cls lo hi | r1 IH1 r2 IH2 | r1 IH1 r2 IH2 | r1 IH1 | n r1 IH1];
    intros s caps k Hk; cbn [match_at].
  - destruct (match_lit l s) as [s'|] eqn:Hl; [|reflexivity].
    apply Hk, (match_lit_suffix _ _ _ Hl).
  - apply match_rep_cont. intros s' Hs'. apply Hk, Hs'.
  - apply IH1. intros s1 caps1 Hs1. apply IH2. intros s2 caps2 Hs2.
    apply Hk. exact (is_suffix_trans _ _ _ Hs2 Hs1).
  - rewrite IH1 by exact Hk. apply IH2, Hk.
  - rewrite IH1 by exact Hk. apply Hk, is_suffix_refl.
  - apply IH1. intros s1 caps1 Hs1. apply Hk, Hs1.
Qed.

Lemma digits_need_digit lo hi : needs_digit (Rep isdigit (S lo) hi).
Proof.
  intros s caps k Hs. cbn [match_at]. destruct s as [|c s]; [reflexivity|].
  cbn [match_rep]. unfold digit_free in Hs. cbn [all_chars] in Hs.
  apply andb_prop in Hs as [Hc _]. apply negb_true_iff in Hc. rewrite Hc.
  reflexivity.
Qed.

Lemma seq_needs_digit_l r1 r2 : needs_digit r1 -> needs_digit (Seq r1 r2).
Proof. intros H1 s caps k Hs. cbn [match_at]. apply H1, Hs. Qed.

Lemma seq_needs_digit_r r1 r2 : needs_digit r2 -> needs_digit (Seq r1 r2).
Proof.
  intros H2 s caps k Hs. cbn [match_at]. apply match_at_cont.
  intros s' caps' Hs'. apply H2. exact (digit_free_suffix _ _ Hs' Hs).
Qed.

Lemma alt_needs_digit r1 r2 : needs_digit r1 -> needs_digit r2 -> needs_digit (Alt r1 r2).
Proof. intros H1 H2 s caps k Hs. cbn [match_at]. rewrite H1 by exact Hs. apply H2, Hs. Qed.

Lemma group_needs_digit n r : needs_digit r -> needs_digit (Group n r).
Proof. intros H1 s caps k Hs. cbn [match_at]. apply H1, Hs. Qed.

Lemma date_pattern_needs_digit : needs_digit date_pattern.
Proof.
  unfold date_pattern.
  do 4 apply seq_needs_digit_r. apply group_needs_digit, alt_needs_digit.
  - do 3 apply seq_needs_digit_r. apply seq_needs_digit_l, digits_need_digit.
  - apply seq_needs_digit_l, digits_need_digit.
Qed.

Lemma search_needs_digit r : needs_digit r ->
  forall s, digit_free s = true -> search r s = None.
Proof.
  intros Hr. induction s as [|c s IH]; intros Hs; cbn [search].
  - rewrite Hr by exact Hs. reflexivity.
  - rewrite Hr by exact Hs. apply IH.
    exact (digit_free_suffix _ _ (is_suffix_tail c s) Hs).
Qed.

(** X7.  For a text without a decimal digit the classifier returns no
    effective date. *)
Theorem no_digit_no_effective_date (before after diff_text : string) :
  digit_free after = true ->
  effective_date (classify before after diff_text) = None.
Proof.
  intros Hd. unfold classify. destruct (foldl _ _ CATS) as [cat n].
  cbn [effective_date].
  rewrite (search_needs_digit _ date_pattern_needs_digit _ Hd). reflexivity.
Qed.

Lemma no_digit_no_effective_date_witness :
  digit_free "This policy is effective on the first of January." = true
  /\ effective_date (classify "" "This policy is effective on the first of January." "") = None.
Proof.
  assert (H : digit_free "This policy is effective on the first of January." = true)
    by reflexivity.
  split; [exact H|].
  exact (no_digit_no_effective_date "" _ "" H).
Defined.

End DateNeedsDigit.

(** ** The notifier *)

Section Notifier.

Import RunSpec.

Lemma slack_color_none sev : slack_color sev = None <-> sev ∉ color_keys.
Proof.
  unfold slack_color, color_keys. split.
  - intros Hn Hin.
    repeat (apply elem_of_cons in Hin as [-> | Hin]; [vm_compute in Hn; discriminate|]).
    inversion Hin.
  - intros Hn. apply not_elem_of_list_to_map_1. exact Hn.
Qed.

(** X8.  [post_slack] raises exactly when a webhook is set and the severity
    is none of the four keys of its colour table; without a webhook it sends
    nothing, whatever the severity. *)
Theorem post_slack_raises_iff (env : Env) (title summary : list N) (url sev : string) :
  (post_slack env title summary url sev = None
   <-> truthy (SLACK_WEBHOOK env) = true /\ sev ∉ color_keys)
  /\ (truthy (SLACK_WEBHOOK env) = false ->
      post_slack env title summary url sev = Some []).
Proof.
  unfold post_slack. destruct (truthy (SLACK_WEBHOOK env)); cbn [negb].
  - split; [|discriminate]. rewrite <- slack_color_none.
    destruct (slack_color sev); split; try discriminate; try tauto.
    intros [_ H]. discriminate.
  - split; [|reflexivity]. split; [discriminate | intros [H _]; discriminate].
Qed.

End Notifier.

(** ** What a run keeps *)

Section RunKeeps.

Import RunSpec Scenario Recording.

Lemma keeps_keys_refl m : keeps_keys m m.
Proof. intros k Hk. exact Hk. Qed.

Lemma keeps_keys_trans m1 m2 m3 :
  keeps_keys m1 m2 -> keeps_keys m2 m3 -> keeps_keys m1 m3.
Proof. intros H1 H2 k Hk. apply H2, H1, Hk. Qed.

Lemma keeps_keys_insert (m : gmap string string) k v : keeps_keys m (<[k := v]> m).
Proof.
  intros k' Hk. destruct (decide (k = k')) as [->|Hne].
  - rewrite lookup_insert_eq. eauto.
  - rewrite lookup_insert_ne by exact Hne. exact Hk.
Qed.

Lemma grows_refl w : grows w w.
Proof. repeat split; try reflexivity; apply keeps_keys_refl. Qed.

Lemma grows_trans w1 w2 w3 : grows w1 w2 -> grows w2 w3 -> grows w1 w3.
Proof.
  intros (E1 & S1 & I1 & K1 & D1) (E2 & S2 & I2 & K2 & D2).
  repeat split; try (etransitivity; eassumption);
    eapply keeps_keys_trans; eassumption.
Qed.

(** The severity of a classification has a colour. *)
Lemma post_slack_classified env ttl summary u before after diff_text :
  is_Some (post_slack env ttl summary u (severity (classify before after diff_text))).
Proof.
  destruct (classify_severity before after diff_text) as [n ->].
  unfold post_slack. destruct (negb _); [eauto|].
  destruct (severity_of_cases n) as [H|[H|[H|H]]]; rewrite H; vm_compute; eauto.
Qed.

Lemma meaningful_magnitude a b :
  is_meaningful (meaningful_delta a b) = true ->
  (8 < magnitude_of (meaningful_delta a b))%nat.
Proof.
  unfold is_meaningful, magnitude_of, meaningful_delta. cbn [fst snd].
  intros H. apply andb_prop in H as [_ H]. apply Nat.ltb_lt, H.
Qed.

(** How the step for one source ends, and the files it leaves. *)
Lemma process_source_cases env w s :
  let before := or_empty (snapshots w !! snap_path_of s) in
  let w' := (process_source env w s).1 in
  match (process_source env w s).2 with
  | FetchFailed => w' = w /\ fetch_text env (src_url s) = None
  | NoChange =>
      w' = w
      /\ exists after, fetch_text env (src_url s) = Some after
                       /\ is_meaningful (meaningful_delta before after) = false
  | Recorded e =>
      exists after diff_name,
        fetch_text env (src_url s) = Some after
        /\ is_meaningful (meaningful_delta before after) = true
        /\ slug e = src_slug s /\ type_ e = src_type s
        /\ diff_file e = "data/diffs/" +:+ diff_name
        /\ magnitude e = magnitude_of (meaningful_delta before after)
        /\ meta e = classify before after (diff_of (meaningful_delta before after))
        /\ events w' = events w ++ [e]
        /\ snapshots w' = <[snap_path_of s := after]> (snapshots w)
        /\ diffs w' = <[diff_name := diff_of (meaningful_delta before after)]> (diffs w)
        /\ slack_posts w `prefix_of` slack_posts w'
        /\ issues w `prefix_of` issues w'
        /\ log w' = log w ++ [Line e]
  | Raised =>
      events w' = events w /\ slack_posts w' = slack_posts w /\ issues w' = issues w
      /\ keeps_keys (snapshots w) (snapshots w') /\ keeps_keys (diffs w) (diffs w')
      /\ (log w' = log w \/ exists partial, log w' = log w ++ [Fragment partial])
  end.
Proof.
  cbv zeta. unfold process_source, snap_path_of, is_meaningful, magnitude_of, diff_of.
  destruct (fetch_text env (src_url s)) as [after|]; [|split; reflexivity].
  destruct (meaningful_delta _ after) as [[changed diff_text] mag] eqn:Hmd.
  cbn [fst snd].
  destruct changed; cbn [negb];
    [|split; [reflexivity | exists after; rewrite Hmd; split; reflexivity]].
  destruct (snapshot_write env) as [| |partial].
  2:{ cbn [fst snd]. repeat split; try apply keeps_keys_refl. left; reflexivity. }
  2:{ cbn [fst snd set_snapshot slack_posts issues snapshots diffs log].
      rewrite events_set_snapshot.
      repeat split; try apply keeps_keys_refl; try apply keeps_keys_insert.
      left; reflexivity. }
  destruct (diff_write env) as [| |partial].
  2:{ cbn [fst snd set_snapshot slack_posts issues snapshots diffs log].
      rewrite events_set_snapshot.
      repeat split; try apply keeps_keys_refl; try apply keeps_keys_insert.
      left; reflexivity. }
  2:{ cbn [fst snd set_snapshot set_diff slack_posts issues snapshots diffs log].
      rewrite events_set_diff, events_set_snapshot.
      repeat split; try apply keeps_keys_refl; try apply keeps_keys_insert.
      left; reflexivity. }
  destruct (log_append env) as [| |partial].
  2:{ cbn [fst snd set_snapshot set_diff slack_posts issues snapshots diffs log].
      rewrite events_set_diff, events_set_snapshot.
      repeat split; try apply keeps_keys_refl; try apply keeps_keys_insert.
      left; reflexivity. }
  2:{ cbn [fst snd]. rewrite events_append_fragment, events_set_diff, events_set_snapshot.
      cbn [append_log set_snapshot set_diff slack_posts issues snapshots diffs log].
      repeat split; try apply keeps_keys_refl; try apply keeps_keys_insert.
      right. eexists. reflexivity. }
  match goal with
  | |- context [post_slack ?e ?t ?su ?u (severity (classify ?b ?a ?d))] =>
      destruct (post_slack_classified e t su u b a d) as [posts Hp]; rewrite Hp
  end.
  cbn [fst snd]. rewrite events_notify, events_append_event, events_set_diff,
    events_set_snapshot.
  cbn [notify append_event append_log set_snapshot set_diff log slack_posts issues
       snapshots diffs slug type_ diff_file magnitude meta].
  eexists after, _. rewrite Hmd. cbn [fst snd].
  repeat split; try reflexivity; apply prefix_app_r; reflexivity.
Qed.

Lemma process_source_grows env w s : grows w (process_source env w s).1.
Proof.
  pose proof (process_source_cases env w s) as Hc. cbv zeta in Hc.
  destruct (process_source env w s) as [w' o]. cbn [fst snd] in *.
  destruct o.
  - destruct Hc as [-> _]. apply grows_refl.
  - destruct Hc as [-> _]. apply grows_refl.
  - destruct Hc as (after & dn & _ & _ & _ & _ & _ & _ & _ & He & Hs & Hd & Hp & Hi & _).
    repeat split; try assumption.
    + rewrite He. apply prefix_app_r. reflexivity.
    + rewrite Hs. apply keeps_keys_insert.
    + rewrite Hd. apply keeps_keys_insert.
  - destruct Hc as (He & Hp & Hi & Hs & Hd & _).
    repeat split; try assumption; [rewrite He | rewrite Hp | rewrite Hi]; reflexivity.
Qed.

Lemma run_grows (work : list (Env * Source)) : forall w, grows w (run w work).1.
Proof.
  induction work as [|[env s] work IH]; intros w; [apply grows_refl|].
  cbn [run]. pose proof (process_source_grows env w s) as Hg.
  destruct (process_source env w s) as [w' o]. cbn [fst] in Hg.
  specialize (IH w'). destruct (run w' work) as [w'' os]. cbn [fst] in IH.
  destruct o; cbn [fst]; try exact Hg; exact (grows_trans _ _ _ Hg IH).
Qed.

(** X9.  A run removes nothing: the event log, the Slack posts and the
    issues of the world it starts from are a prefix of those it ends with,
    and every snapshot and every diff that was stored still is. *)
Theorem run_only_grows (work : list (Env * Source)) (w : World) :
  grows w (run w work).1.
Proof. apply run_grows. Qed.

End RunKeeps.

(** ** What a run records *)

Section RunRecords.

Import RunSpec Scenario Recording.

Lemma backed_grows w w' e : grows w w' -> backed w e -> backed w' e.
Proof.
  intros (_ & _ & _ & Hs & Hd) ((dn & Hf & Hdn) & Hm & Hsn).
  split; [exists dn; split; [exact Hf | apply Hd, Hdn]|].
  split; [exact Hm | apply Hs, Hsn].
Qed.

Lemma process_source_records env w s :
  let w' := (process_source env w s).1 in
  let o := (process_source env w s).2 in
  (exists tail, log w' = log w ++ map Line (recorded_events [o]) ++ tail
      /\ (tail = [] \/ exists partial, tail = [Fragment partial] /\ o = Raised))
  /\ (forall e, o = Recorded e -> backed w' e)
  /\ (skipped o -> w' = w).
Proof.
  pose proof (process_source_cases env w s) as Hc. cbv zeta in *.
  destruct (process_source env w s) as [w' o]. cbn [fst snd] in *.
  destruct o; cbn [recorded_events omap map app].
  - destruct Hc as [-> _].
    split; [exists []; rewrite app_nil_r; split; [reflexivity | left; reflexivity]|].
    split; [discriminate | reflexivity].
  - destruct Hc as [-> _].
    split; [exists []; rewrite app_nil_r; split; [reflexivity | left; reflexivity]|].
    split; [discriminate | reflexivity].
  - destruct Hc as (after & dn & _ & Hm & Hsl & Hty & Hf & Hmag & _ & _ & Hs & Hd & _ & _ & Hl).
    split; [exists []; rewrite Hl; split; [reflexivity | left; reflexivity]|].
    split; [|intros [H|H]; discriminate].
    intros e' [= <-]. split; [|split].
    + exists dn. split; [exact Hf|]. rewrite Hd, lookup_insert_eq. eauto.
    + rewrite Hmag. apply meaningful_magnitude, Hm.
    + rewrite Hs, Hsl, Hty. unfold snap_path_of. rewrite lookup_insert_eq. eauto.
  - destruct Hc as (_ & _ & _ & _ & _ & [Hl | [partial Hl]]).
    + split; [exists []; rewrite app_nil_r; split; [exact Hl | left; reflexivity]|].
      split; [discriminate | intros [H|H]; discriminate].
    + split; [exists [Fragment partial]; split; [exact Hl | right; eauto]|].
      split; [discriminate | intros [H|H]; discriminate].
Qed.

Lemma recorded_events_cons o os :
  recorded_events (o :: os) = recorded_events [o] ++ recorded_events os.
Proof. unfold recorded_events. destruct o; reflexivity. Qed.

Lemma run_records (work : list (Env * Source)) : forall w,
  let w' := (run w work).1 in
  let outcomes := (run w work).2 in
  (exists tail, log w' = log w ++ map Line (recorded_events outcomes) ++ tail
      /\ (tail = [] \/ exists partial, tail = [Fragment partial]
                                       /\ last outcomes = Some Raised))
  /\ (forall e, e ∈ recorded_events outcomes -> backed w' e)
  /\ (Forall skipped outcomes -> w' = w).
Proof.
  induction work as [|[env s] work IH]; intros w; cbv zeta.
  - cbn [run fst snd recorded_events omap map app].
    split; [exists []; rewrite app_nil_r; split; [reflexivity | left; reflexivity]|].
    split; [intros e He; inversion He | reflexivity].
  - cbn [run].
    pose proof (process_source_records env w s) as Hr. cbv zeta in Hr.
    destruct (process_source env w s) as [w1 o]. cbn [fst snd] in Hr.
    destruct Hr as ((tail1 & Hl1 & Ht1) & Hb1 & Hs1).
    specialize (IH w1). cbv zeta in IH.
    pose proof (run_grows work w1) as Hg.
    destruct (run w1 work) as [w2 os]. cbn [fst snd] in IH, Hg.
    destruct IH as ((tail2 & Hl2 & Ht2) & Hb2 & Hs2).
    assert (Hcont : o <> Raised ->
              (exists tail, log w2 = log w ++ map Line (recorded_events (o :: os)) ++ tail
                 /\ (tail = [] \/ exists partial, tail = [Fragment partial]
                                                  /\ last (o :: os) = Some Raised))
              /\ (forall e, e ∈ recorded_events os -> backed w2 e)).
    { intros Ho. split; [|exact Hb2].
      destruct Ht1 as [-> | (partial & _ & ->)]; [|congruence].
      exists tail2. rewrite app_nil_r in Hl1.
      split; [rewrite (recorded_events_cons o os), map_app, Hl2, Hl1, <- !app_assoc;
              reflexivity|].
      destruct Ht2 as [-> | (partial & -> & Hlast)]; [left; reflexivity|].
      right. exists partial. split; [reflexivity|].
      rewrite last_cons, Hlast. reflexivity. }
    destruct o; cbn [fst snd].
    + destruct Hcont as [Hl Hb]; [discriminate|].
      split; [exact Hl|]. split; [exact Hb|].
      intros Hf. apply Forall_cons in Hf as [Ho Hf].
      rewrite (Hs2 Hf). apply Hs1, Ho.
    + destruct Hcont as [Hl Hb]; [discriminate|].
      split; [exact Hl|]. split; [exact Hb|].
      intros Hf. apply Forall_cons in Hf as [Ho Hf].
      rewrite (Hs2 Hf). apply Hs1, Ho.
    + destruct Hcont as [Hl Hb]; [discriminate|].
      split; [exact Hl|]. split.
      * intros e' He. cbn [recorded_events omap app] in He.
        apply elem_of_cons in He as [->|He]; [|apply Hb, He].
        apply (backed_grows w1); [exact Hg | apply Hb1; reflexivity].
      * intros Hf. apply Forall_cons in Hf as [[H|H] _]; discriminate.
    + split; [|split].
      * exists tail1. split; [exact Hl1|].
        destruct Ht1 as [-> | (partial & -> & _)]; [left; reflexivity|].
        right. exists partial. split; reflexivity.
      * intros e He. inversion He.
      * intros Hf. inversion Hf as [|? ? [H|H] _]; discriminate.
Qed.

(** X10.  After a run the event log is the log before it, followed by the
    lines of the events of the recordings, in the order of the sources, and
    by nothing else, unless the run ended in an append that failed: then
    what that append left of its line comes last.  Each recorded event
    refers to a diff that is stored when the run ends, has a magnitude above
    8, and its source has a snapshot.  A run that skips every source leaves
    every file as it was. *)
Theorem run_log_is_recordings (work : list (Env * Source)) (w : World) :
  let w' := (run w work).1 in
  let outcomes := (run w work).2 in
  (exists tail, log w' = log w ++ map Line (recorded_events outcomes) ++ tail
      /\ (tail = [] \/ exists partial, tail = [Fragment partial]
                                       /\ last outcomes = Some Raised))
  /\ (forall e, e ∈ recorded_events outcomes -> backed w' e)
  /\ (Forall skipped outcomes -> w' = w).
Proof. apply run_records. Qed.

End RunRecords.

(** ** A second look at a recorded text *)

Section SecondLook.

Import RunSpec Scenario Recording.

Lemma same_text_not_meaningful a : is_meaningful (meaningful_delta a a) = false.
Proof.
  unfold is_meaningful, meaningful_delta. cbn [fst].
  replace (Qltb (quick_ratio (split a) (split a)) 0.995) with false; [reflexivity|].
  symmetry. apply not_true_is_false. intros Hlt.
  apply Qltb_lt in Hlt. rewrite quick_ratio_self in Hlt.
  revert Hlt. apply Qle_not_lt. discriminate.
Qed.

(** X13.  Once a change of a source is recorded, a step that fetches the
    same text for it again finds no meaningful change and writes nothing. *)
Theorem recorded_text_is_not_recorded_again
    (env env' : Env) (w w' : World) (s : Source) (e : Event) :
  process_source env w s = (w', Recorded e) ->
  fetch_text env' (src_url s) = fetch_text env (src_url s) ->
  process_source env' w' s = (w', NoChange).
Proof.
  intros Hp Hf. pose proof (process_source_cases env w s) as Hc. cbv zeta in Hc.
  rewrite Hp in Hc. cbn [fst snd] in Hc.
  destruct Hc as (after & dn & Hfetch & _ & _ & _ & _ & _ & _ & _ & Hs & _).
  apply process_source_not_meaningful with (after := after); [congruence|].
  rewrite Hs, lookup_insert_eq. cbn [or_empty default]. apply same_text_not_meaningful.
Qed.

Lemma recorded_text_is_not_recorded_again_witness :
  exists w' e,
    process_source (serving new_text) stale_world acme_pricing = (w', Recorded e)
    /\ process_source (serving new_text) w' acme_pricing = (w', NoChange).
Proof.
  destruct (process_source (serving new_text) stale_world acme_pricing) as [w' o] eqn:Hp.
  assert (Ho : (process_source (serving new_text) stale_world acme_pricing).2 =
               (process_source (serving new_text) stale_world acme_pricing).2) by reflexivity.
  rewrite Hp in Ho at 1. cbn [snd] in Ho.
  destruct o as [| |e|]; try (vm_compute in Ho; discriminate Ho).
  exists w', e. split; [reflexivity|].
  exact (recorded_text_is_not_recorded_again (serving new_text) (serving new_text)
           stale_world w' acme_pricing e Hp eq_refl).
Defined.

End SecondLook.

(** ** The text [fetch_text] returns *)

Section FetchedText.

Import NormalForm.

Lemma collapse_ws_head s :
  starts_with_char isspace (collapse_ws s) = starts_with_char isspace s.
Proof.
  induction s as [|c s IH]; [reflexivity|].
  cbn [collapse_ws starts_with_char]. destruct (isspace c) eqn:Hc.
  - destruct (starts_with_char isspace s) eqn:Hs; [rewrite IH; reflexivity | reflexivity].
  - cbn [starts_with_char]. exact Hc.
Qed.

Lemma collapse_ws_single_spaced s : single_spaced (collapse_ws s) = true.
Proof.
  induction s as [|c s IH]; [reflexivity|].
  cbn [collapse_ws]. destruct (isspace c) eqn:Hc.
  - destruct (starts_with_char isspace s) eqn:Hs; [exact IH|].
    cbn [single_spaced]. rewrite collapse_ws_head, Hs, IH. reflexivity.
  - cbn [single_spaced]. rewrite Hc, IH. reflexivity.
Qed.

Lemma single_spaced_tail c s : single_spaced (String c s) = true -> single_spaced s = true.
Proof. cbn [single_spaced]. intros H. apply andb_prop in H as [_ H]. exact H. Qed.

Lemma lstrip_single_spaced s : single_spaced s = true -> single_spaced (lstrip s) = true.
Proof.
  induction s as [|c s IH]; [reflexivity|]. intros Hs.
  cbn [lstrip]. destruct (isspace c); [|exact Hs].
  apply IH, (single_spaced_tail c), Hs.
Qed.

Lemma lstrip_head s : starts_with_char isspace (lstrip s) = false.
Proof.
  induction s as [|c s IH]; [reflexivity|].
  cbn [lstrip]. destruct (isspace c) eqn:Hc; [exact IH | exact Hc].
Qed.

Lemma rstrip_head s :
  starts_with_char isspace (rstrip s) = true -> starts_with_char isspace s = true.
Proof.
  destruct s as [|c s]; [discriminate|]. cbn [rstrip].
  destruct (rstrip s); [|exact id].
  destruct (isspace c) eqn:Hc; [discriminate|].
  cbn [starts_with_char]. congruence.
Qed.

Lemma rstrip_single_spaced s : single_spaced s = true -> single_spaced (rstrip s) = true.
Proof.
  induction s as [|c s IH]; [reflexivity|]. intros Hs.
  pose proof (IH (single_spaced_tail _ _ Hs)) as IH'.
  pose proof (rstrip_head s) as Hh.
  cbn [rstrip]. cbn [single_spaced] in Hs. apply andb_prop in Hs as [Hc _].
  destruct (rstrip s) as [|d r] eqn:Hr.
  - destruct (isspace c) eqn:E; [reflexivity|]. cbn [single_spaced]. rewrite E. reflexivity.
  - cbn [single_spaced] in *. rewrite IH', andb_true_r.
    destruct (isspace c); [|reflexivity].
    apply andb_prop in Hc as [Hsp Hn]. rewrite Hsp. cbn [andb].
    apply negb_true_iff. apply negb_true_iff in Hn.
    destruct (starts_with_char isspace (String d r)) eqn:E; [|reflexivity].
    rewrite (Hh eq_refl) in Hn. discriminate.
Qed.

Lemma rstrip_end s : ends_with_space (rstrip s) = false.
Proof.
  induction s as [|c s IH]; [reflexivity|].
  cbn [rstrip]. destruct (rstrip s) as [|d r].
  - destruct (isspace c) eqn:Hc; [reflexivity | cbn; exact Hc].
  - exact IH.
Qed.

Lemma lstrip_end s : ends_with_space s = false -> ends_with_space (lstrip s) = false.
Proof.
  induction s as [|c s IH]; [reflexivity|]. intros He.
  cbn [lstrip]. destruct (isspace c) eqn:Hc; [|exact He].
  apply IH. destruct s; [reflexivity | exact He].
Qed.

Lemma normalize_normalized text : normalized (normalize text) = true.
Proof.
  unfold normalized, normalize, strip.
  rewrite lstrip_single_spaced, lstrip_head, lstrip_end; [reflexivity | apply rstrip_end |].
  apply rstrip_single_spaced, collapse_ws_single_spaced.
Qed.

Lemma collapse_ws_id s : single_spaced s = true -> collapse_ws s = s.
Proof.
  induction s as [|c s IH]; [reflexivity|]. intros Hs.
  pose proof (IH (single_spaced_tail _ _ Hs)) as IH'.
  cbn [single_spaced] in Hs. apply andb_prop in Hs as [Hc _].
  cbn [collapse_ws]. destruct (isspace c); [|rewrite IH'; reflexivity].
  apply andb_prop in Hc as [Hsp Hn]. apply negb_true_iff in Hn. rewrite Hn, IH'.
  apply Ascii.eqb_eq in Hsp. rewrite Hsp. reflexivity.
Qed.

Lemma lstrip_id s : starts_with_char isspace s = false -> lstrip s = s.
Proof. destruct s as [|c s]; [reflexivity|]. cbn. intros ->. reflexivity. Qed.

Lemma rstrip_id s : ends_with_space s = false -> rstrip s = s.
Proof.
  induction s as [|c s IH]; [reflexivity|]. intros He.
  cbn [rstrip]. destruct s as [|d s].
  - cbn in *. rewrite He. reflexivity.
  - rewrite IH by exact He. reflexivity.
Qed.

Lemma normalized_fixpoint s : normalized s = true -> normalize s = s.
Proof.
  unfold normalized, normalize, strip. intros H.
  apply andb_prop in H as [H He]. apply andb_prop in H as [Hs Hh].
  apply negb_true_iff in He, Hh.
  rewrite (collapse_ws_id _ Hs), (rstrip_id _ He), (lstrip_id _ Hh). reflexivity.
Qed.

(** X14.  Every text [fetch_text] returns is in normal form: its only white
    space is single plain spaces between words, with none at its ends, so
    that normalising it again changes nothing.  A page from which nothing is
    extracted gives the empty text, not an error. *)
Theorem fetch_text_normalized (env : Env) (url : string) :
  (forall text, fetch_text env url = Some text ->
     normalized text = true /\ normalize text = text)
  /\ (forall html, http_get env url = Some html -> extract env html = None ->
        fetch_text env url = Some EmptyString)
  /\ (fetch_text env url = None <-> http_get env url = None).
Proof.
  unfold fetch_text. split; [|split].
  - intros text Hf. destruct (http_get env url); [|discriminate].
    injection Hf as <-.
    split; [apply normalize_normalized | apply normalized_fixpoint, normalize_normalized].
  - intros html -> ->. reflexivity.
  - destruct (http_get env url); split; congruence.
Qed.

End FetchedText.

(** ** The words of a fetched text *)

Section FetchedWords.

Import NormalForm Scenario.

Lemma split_nonempty s :
  starts_with_char (fun d => negb (isspace d)) s = true -> split s <> [].
Proof.
  destruct s as [|c s]; [discriminate|]. cbn [starts_with_char split].
  intros Hc. apply negb_true_iff in Hc. rewrite Hc.
  destruct (starts_with_char _ s); [destruct (split s)|]; discriminate.
Qed.

Lemma join_cons_char sep c w ws :
  join sep (String c w :: ws) = String c (join sep (w :: ws)).
Proof. destruct ws; reflexivity. Qed.

Lemma join_cons_nonempty sep x l :
  l <> [] -> join sep (x :: l) = x +:+ sep +:+ join sep l.
Proof. destruct l; [congruence | reflexivity]. Qed.

Lemma ends_with_space_tail c s :
  s <> EmptyString -> ends_with_space (String c s) = ends_with_space s.
Proof. destruct s; [congruence | reflexivity]. Qed.

Lemma join_split s :
  single_spaced s = true -> ends_with_space s = false ->
  join " " (split s) = lstrip s.
Proof.
  induction s as [|c s IH]; [reflexivity|]. intros Hs He.
  pose proof (single_spaced_tail _ _ Hs) as Hs'.
  cbn [split lstrip]. destruct (isspace c) eqn:Hc.
  - destruct s as [|d s]; [cbn in He; congruence|].
    apply IH; [exact Hs' | exact He].
  - destruct s as [|d s]; [reflexivity|].
    rewrite ends_with_space_tail in He by discriminate.
    specialize (IH Hs' He).
    cbn [starts_with_char]. destruct (isspace d) eqn:Hd; cbn [negb].
    + cbn [single_spaced] in Hs'. rewrite Hd in Hs'.
      apply andb_prop in Hs' as [Hsp Hs'']. apply andb_prop in Hsp as [Hsp Hn].
      apply Ascii.eqb_eq in Hsp. subst d. apply negb_true_iff in Hn.
      assert (Hne : s <> EmptyString) by (intros ->; cbn in He; discriminate).
      assert (Hhead : starts_with_char (fun d => negb (isspace d)) s = true).
      { destruct s as [|x s]; [congruence|]. cbn in *. rewrite Hn. reflexivity. }
      rewrite join_cons_nonempty by (cbn [split]; rewrite Hd; apply split_nonempty, Hhead).
      rewrite IH. cbn [lstrip]. rewrite Hd. rewrite (lstrip_id _ Hn). reflexivity.
    + pose proof (split_nonempty (String d s)) as Hne.
      cbn [starts_with_char] in Hne. rewrite Hd in Hne. specialize (Hne eq_refl).
      cbn [lstrip] in IH. rewrite Hd in IH.
      destruct (split (String d s)) as [|w ws]; [congruence|].
      rewrite join_cons_char, IH. reflexivity.
Qed.

Lemma normalized_words s : normalized s = true -> join " " (split s) = s.
Proof.
  unfold normalized. intros H.
  apply andb_prop in H as [H He]. apply andb_prop in H as [Hs Hh].
  apply negb_true_iff in He, Hh.
  rewrite (join_split _ Hs He). apply lstrip_id, Hh.
Qed.

(** X15.  A text [fetch_text] returns is its words joined by single
    spaces: splitting it at white space and joining the words gives the
    text back. *)
Theorem fetched_text_is_its_words (env : Env) (url text : string) :
  fetch_text env url = Some text ->
  join " " (split text) = text.
Proof.
  unfold fetch_text. destruct (http_get env url); [|discriminate].
  intros [= <-]. apply normalized_words, normalize_normalized.
Qed.

Lemma fetched_text_is_its_words_witness :
  join " " (split after1) = after1.
Proof.
  apply (fetched_text_is_its_words (serving after1) "https://acme.example/pricing").
  reflexivity.
Defined.

End FetchedWords.

(** ** The range of the quick ratio *)

Section QuickRatioRange.

Import Count Remove.

Context {T : Type} `{Countable T}.

Lemma remove_one_length (x : T) l :
  0 < occurrences x l -> Z.of_nat (length (remove_one x l)) = Z.of_nat (length l) - 1.
Proof.
  induction l as [|y l IH]; cbn [occurrences remove_one]; [lia|].
  destruct (decide (y = x)); intros Ho; cbn [length]; [lia|].
  rewrite Nat2Z.inj_succ, IH by lia. lia.
Qed.

Lemma remove_one_occurrences (x y : T) l :
  0 < occurrences x l ->
  occurrences y (remove_one x l) = occurrences y l - (if decide (x = y) then 1 else 0).
Proof.
  induction l as [|z l IH]; cbn [occurrences remove_one]; [lia|].
  destruct (decide (z = x)) as [->|Hzx]; intros Ho.
  - destruct (decide (x = y)); lia.
  - cbn [occurrences]. rewrite IH by lia. lia.
Qed.

Lemma avail_step_tracks (fb : gmap T Z) (rest : list T) :
  forall (avail : gmap T Z) (matches : Z) (rem : list T),
    tracks fb avail rem ->
    let r := foldl (avail_step fb) (avail, matches) rest in
    exists rem',
      tracks fb r.1 rem'
      /\ r.2 + Z.of_nat (length rem') = matches + Z.of_nat (length rem)
      /\ matches <= r.2 <= matches + Z.of_nat (length rest).
Proof.
  induction rest as [|elt rest IH]; intros avail matches rem Htr; cbv zeta.
  - cbn [foldl fst snd length]. exists rem. split; [exact Htr|]. lia.
  - cbn [foldl avail_step].
    destruct (Htr elt) as [Hpos Hneg].
    destruct (0 <? numb_of fb avail elt) eqn:E.
    + apply Z.ltb_lt in E. specialize (Hpos E).
      assert (Ho : 0 < occurrences elt rem) by lia.
      destruct (IH (<[elt := numb_of fb avail elt - 1]> avail) (matches + 1)
                   (remove_one elt rem)) as (rem' & Htr' & Hlen & Hm).
      * intros x. rewrite numb_of_insert, (remove_one_occurrences elt x rem Ho).
        destruct (Htr x) as [Hp Hn].
        destruct (decide (elt = x)) as [->|Hne]; [lia|].
        split; intros Hx; [rewrite (Hp Hx) | rewrite (Hn Hx)]; lia.
      * cbv zeta in *. exists rem'. split; [exact Htr'|].
        rewrite (remove_one_length elt rem Ho) in Hlen.
        rewrite length_cons, Nat2Z.inj_succ. lia.
    + apply Z.ltb_ge in E. specialize (Hneg E).
      destruct (IH (<[elt := numb_of fb avail elt - 1]> avail) matches rem)
        as (rem' & Htr' & Hlen & Hm).
      * intros x. rewrite numb_of_insert.
        destruct (Htr x) as [Hp Hn].
        destruct (decide (elt = x)) as [->|Hne]; [lia | split; assumption].
      * cbv zeta in *. exists rem'. split; [exact Htr'|].
        rewrite length_cons, Nat2Z.inj_succ. lia.
Qed.

Lemma quick_ratio_matches_range (a b : list T) :
  let matches := (foldl (avail_step (foldl count_step ∅ b)) (∅, 0) a).2 in
  0 <= matches /\ matches <= Z.of_nat (length a) /\ matches <= Z.of_nat (length b).
Proof.
  cbv zeta.
  destruct (avail_step_tracks (foldl count_step ∅ b) a ∅ 0 b) as (rem & _ & Hlen & Hm).
  - intros x. unfold numb_of. rewrite lookup_empty, fullbcount_lookup, lookup_empty.
    cbn [default]. pose proof (occurrences_nonneg x b). change (id 0) with 0. lia.
  - cbv zeta in *. lia.
Qed.

Lemma calculate_ratio_range (m n : Z) :
  0 <= m -> 2 * m <= n -> (0 <= _calculate_ratio m n <= 1)%Q.
Proof.
  intros Hm Hn. unfold _calculate_ratio.
  destruct (n =? 0) eqn:E; [split; discriminate|].
  apply Z.eqb_neq in E.
  assert (Hpos : (0 < inject_Z n)%Q)
    by (change 0%Q with (inject_Z 0); rewrite <- Zlt_Qlt; lia).
  split.
  - apply Qle_shift_div_l; [exact Hpos|].
    rewrite Qmult_0_l. change 2%Q with (inject_Z 2). change 0%Q with (inject_Z 0).
    rewrite <- inject_Z_mult, <- Zle_Qle. lia.
  - apply Qle_shift_div_r; [exact Hpos|].
    rewrite Qmult_1_l. change 2%Q with (inject_Z 2).
    rewrite <- inject_Z_mult, <- Zle_Qle. exact Hn.
Qed.

(** X16.  The quick ratio of two sequences lies between 0 and 1. *)
Theorem quick_ratio_range (a b : list T) : (0 <= quick_ratio a b <= 1)%Q.
Proof.
  unfold quick_ratio.
  pose proof (quick_ratio_matches_range a b) as Hm. cbv zeta in Hm.
  apply calculate_ratio_range; lia.
Qed.

End QuickRatioRange.

(** ** The diff of a text against itself *)

(** The scan of [find_longest_match] on a sequence and itself keeps its best
    block on the diagonal: a cell off the diagonal is never longer than the
    run of known elements that ends at its row or at its column, and the
    cell of the diagonal in that row or column came first.  The loops that
    extend the block then take it to the whole sequence, also over the
    elements that [chain_b] left out as popular. *)

Section Chain.
Import Diagonal.
Context {T : Type} `{Countable T}.

Lemma chain_fold_lookup (x : T) (l : list T) :
  forall (g : nat -> Z) (off : Z) (m : gmap T (list Z)),
  (forall i, g i = off + Z.of_nat i) ->
  foldl (fun (b2j : gmap T (list Z)) '(i, elt) =>
           <[elt := default [] (b2j !! elt) ++ [i]]> b2j)
        m (imap (fun i elt => (g i, elt)) l) !! x
  = match positions x l off with
    | [] => m !! x
    | ps => Some (default [] (m !! x) ++ ps)
    end.
Proof.
  induction l as [|y l IH]; intros g off m Hg; [reflexivity|].
  cbn [imap foldl positions].
  change (imap ((fun i elt => (g i, elt)) ∘ S) l)
    with (imap (fun i elt => ((fun i => g (S i)) i, elt)) l).
  rewrite (IH (fun i => g (S i)) (off + 1)) by (intros i; rewrite Hg; lia).
  rewrite (Hg O). replace (off + Z.of_nat 0) with off by lia.
  destruct (decide (y = x)) as [->|Hne].
  - rewrite lookup_insert_eq. cbn [app].
    destruct (positions x l (off + 1)); [reflexivity|].
    cbn [default from_option id]. rewrite <- app_assoc. reflexivity.
  - rewrite lookup_insert_ne by exact Hne. reflexivity.
Qed.

Lemma chain_b_lookup (l : list T) (x : T) js :
  chain_b l !! x = Some js -> js = positions x l 0 /\ js <> [].
Proof.
  unfold chain_b.
  assert (Hu : forall js, foldl (fun (b2j : gmap T (list Z)) '(i, elt) =>
           <[elt := default [] (b2j !! elt) ++ [i]]> b2j)
        ∅ (imap (fun i elt => (Z.of_nat i, elt)) l) !! x = Some js ->
        js = positions x l 0 /\ js <> []).
  { intros js' Hl.
    rewrite (chain_fold_lookup x l Z.of_nat 0 ∅) in Hl by (intros i; lia).
    rewrite lookup_empty in Hl. destruct (positions x l 0); [discriminate|].
    cbn in Hl. injection Hl as <-. split; [reflexivity | discriminate]. }
  destruct (200 <=? Z.of_nat (length l)); [|apply Hu].
  intros Hf. apply map_lookup_filter_Some in Hf as [Hf _]. apply Hu, Hf.
Qed.
End Chain.

Section Positions.
Import Diagonal.
Context {T : Type} `{Countable T}.

Lemma positions_elem (x : T) l : forall off j,
  j ∈ positions x l off -> off <= j /\ l !! Z.to_nat (j - off) = Some x.
Proof.
  induction l as [|y l IH]; intros off j Hj; [inversion Hj|].
  cbn [positions] in Hj. apply elem_of_app in Hj as [Hj|Hj].
  - destruct (decide (y = x)) as [->|]; [|inversion Hj].
    apply list_elem_of_singleton in Hj as ->.
    split; [lia|]. replace (off - off) with 0 by lia. reflexivity.
  - destruct (IH _ _ Hj) as [Hle Hl]. split; [lia|].
    replace (Z.to_nat (j - off)) with (S (Z.to_nat (j - (off + 1)))) by lia.
    exact Hl.
Qed.

Lemma positions_split (x : T) l : forall off i,
  l !! i = Some x ->
  exists lt gt,
    positions x l off = lt ++ (off + Z.of_nat i) :: gt
    /\ Forall (fun j => j < off + Z.of_nat i) lt
    /\ Forall (fun j => off + Z.of_nat i < j) gt.
Proof.
  induction l as [|y l IH]; intros off i Hi; [discriminate|].
  cbn [positions]. destruct i as [|i].
  - injection Hi as ->. destruct (decide (x = x)); [|congruence].
    exists [], (positions x l (off + 1)). split; [cbn; f_equal; f_equal; lia|].
    split; [constructor|]. apply Forall_forall. intros j Hj.
    apply positions_elem in Hj as [Hj _]. lia.
  - cbn [lookup list_lookup] in Hi.
    destruct (IH (off + 1) i Hi) as (lt & gt & Hp & Hlt & Hgt).
    exists ((if decide (y = x) then [off] else []) ++ lt), gt.
    split; [rewrite Hp, <- app_assoc; do 3 f_equal; lia|]. split.
    + apply Forall_app. split.
      * destruct (decide (y = x)); constructor; [lia | constructor].
      * eapply Forall_impl; [exact Hlt|]. intros j Hj. cbn beta in *. lia.
    + eapply Forall_impl; [exact Hgt|]. intros j Hj. cbn beta in *. lia.
Qed.

End Positions.

Section ScanSelf.
Import Diagonal.
Context {T : Type} `{Countable T}.
Variable l : list T.
Variable b2j : gmap T (list Z).

Variable n : Z.
Hypothesis Hn : n = Z.of_nat (length l).

Lemma run_before_nonneg i : 0 <= run_before b2j l i.
Proof.
  induction i as [|i IH]; cbn [run_before]; [lia|].
  destruct (l !! i); [|lia]. destruct (decide _); lia.
Qed.

Lemma run_before_le i : run_before b2j l i <= Z.of_nat i.
Proof.
  induction i as [|i IH]; cbn [run_before]; [lia|].
  destruct (l !! i); [|lia]. destruct (decide _); lia.
Qed.

Lemma run_at_nonneg j : 0 <= run_at b2j l j.
Proof. apply run_before_nonneg. Qed.

Lemma run_at_le j : 0 <= j -> run_at b2j l j <= j + 1.
Proof. intros Hj. unfold run_at. pose proof (run_before_le (Z.to_nat (j + 1))). lia. Qed.

Lemma run_at_kept j x :
  0 <= j -> item l j = Some x -> is_Some (b2j !! x) ->
  run_at b2j l j = run_at b2j l (j - 1) + 1.
Proof.
  intros Hj Hx Hk. unfold run_at, item in *.
  replace (Z.to_nat (j + 1)) with (S (Z.to_nat j)) by lia.
  replace (j - 1 + 1) with j by lia.
  cbn [run_before]. rewrite Hx. destruct (decide _); [reflexivity | contradiction].
Qed.

Lemma run_at_dropped j x :
  0 <= j -> item l j = Some x -> b2j !! x = None -> run_at b2j l j = 0.
Proof.
  intros Hj Hx Hk. unfold run_at, item in *.
  replace (Z.to_nat (j + 1)) with (S (Z.to_nat j)) by lia.
  cbn [run_before]. rewrite Hx. destruct (decide _) as [[js Hs]|]; [congruence | reflexivity].
Qed.

Lemma cell_len i j2len j :
  lens_below b2j l (i - 1) j2len ->
  run_at b2j l i = run_at b2j l (i - 1) + 1 ->
  run_at b2j l j = run_at b2j l (j - 1) + 1 ->
  1 <= default 0 (j2len !! (j - 1)) + 1
  /\ default 0 (j2len !! (j - 1)) + 1 <= run_at b2j l j
  /\ default 0 (j2len !! (j - 1)) + 1 <= run_at b2j l i.
Proof.
  intros Hl Hi Hj. destruct (j2len !! (j - 1)) as [v|] eqn:Hv; simpl.
  - destruct (Hl _ _ Hv) as (H1 & H2 & H3). lia.
  - pose proof (run_at_nonneg (j - 1)). pose proof (run_at_nonneg (i - 1)). lia.
Qed.

Lemma scan_js_dominated_pre i j2len rest besti bestj bestsize :
  lens_below b2j l (i - 1) j2len -> run_at b2j l i = run_at b2j l (i - 1) + 1 ->
  forall js new,
    Forall (fun j => cell_ok b2j l i bestsize j /\ j < n) js ->
    lens_below b2j l i new ->
    exists new',
      scan_js 0 n i j2len (js ++ rest) new (besti, bestj, bestsize)
      = scan_js 0 n i j2len rest new' (besti, bestj, bestsize)
      /\ lens_below b2j l i new' /\ new' !! i = new !! i.
Proof.
  intros Hl Hi. induction js as [|j js IH]; intros new Hjs Hnew.
  - exists new. split; [reflexivity|]. split; [exact Hnew | reflexivity].
  - apply Forall_cons in Hjs as [[(Hj0 & HDj & Hne & Hcap) Hjn] Hjs].
    cbn [app scan_js].
    replace (j <? 0) with false by (symmetry; apply Z.ltb_ge; lia).
    replace (n <=? j) with false by (symmetry; apply Z.leb_gt; lia).
    destruct (cell_len i j2len j Hl Hi HDj) as (Hk1 & Hk2 & Hk3).
    replace (bestsize <? _) with false by (symmetry; apply Z.ltb_ge; lia).
    destruct (IH (<[j := default 0 (j2len !! (j - 1)) + 1]> new) Hjs)
      as (new' & He & Hn' & Hi').
    + intros j' v Hv. destruct (decide (j = j')) as [->|Hjj].
      * rewrite lookup_insert_eq in Hv. injection Hv as <-. lia.
      * rewrite lookup_insert_ne in Hv by exact Hjj. exact (Hnew _ _ Hv).
    + exists new'. split; [exact He|]. split; [exact Hn'|].
      rewrite Hi'. apply lookup_insert_ne. exact Hne.
Qed.

Lemma scan_js_dominated_post i j2len besti bestj bestsize :
  lens_below b2j l (i - 1) j2len -> run_at b2j l i = run_at b2j l (i - 1) + 1 ->
  forall js new,
    Forall (cell_ok b2j l i bestsize) js ->
    lens_below b2j l i new ->
    let r := scan_js 0 n i j2len js new (besti, bestj, bestsize) in
    r.2 = (besti, bestj, bestsize) /\ lens_below b2j l i r.1 /\ r.1 !! i = new !! i.
Proof.
  intros Hl Hi. induction js as [|j js IH]; intros new Hjs Hnew; cbv zeta.
  - cbn [scan_js fst snd]. split; [reflexivity|]. split; [exact Hnew | reflexivity].
  - apply Forall_cons in Hjs as [(Hj0 & HDj & Hne & Hcap) Hjs].
    cbn [scan_js].
    replace (j <? 0) with false by (symmetry; apply Z.ltb_ge; lia).
    destruct (n <=? j).
    { cbn [fst snd]. split; [reflexivity|]. split; [exact Hnew | reflexivity]. }
    destruct (cell_len i j2len j Hl Hi HDj) as (Hk1 & Hk2 & Hk3).
    replace (bestsize <? _) with false by (symmetry; apply Z.ltb_ge; lia).
    destruct (IH (<[j := default 0 (j2len !! (j - 1)) + 1]> new) Hjs)
      as (He & Hn' & Hi').
    + intros j' v Hv. destruct (decide (j = j')) as [->|Hjj].
      * rewrite lookup_insert_eq in Hv. injection Hv as <-. lia.
      * rewrite lookup_insert_ne in Hv by exact Hjj. exact (Hnew _ _ Hv).
    + split; [exact He|]. split; [exact Hn'|].
      rewrite Hi'. apply lookup_insert_ne. exact Hne.
Qed.

Hypothesis Hb2j : forall x js, b2j !! x = Some js -> js = positions x l 0.

Lemma lens_below_empty i : lens_below b2j l i ∅.
Proof. intros j v Hv. rewrite lookup_empty in Hv. discriminate. Qed.

Lemma scan_i_row i st :
  0 <= i < n -> row_inv b2j l i st -> row_inv b2j l (i + 1) (scan_i l b2j 0 n st i).
Proof.
  intros Hi Hinv. destruct st as [j2len [[besti bestj] bestsize]].
  destruct Hinv as (Hlens & Hprev & Hdiag & Hlo & Hhi & Hsz & Hdom).
  cbn [fst snd] in *.
  unfold scan_i.
  destruct (lookup_lt_is_Some_2 l (Z.to_nat i)) as [x Hx]; [lia|].
  unfold item. rewrite Hx.
  replace (i + 1 - 1) with i by lia.
  destruct (b2j !! x) as [js|] eqn:Hjs; cbn [default from_option id].
  - unfold id.
    assert (Hkept : run_at b2j l i = run_at b2j l (i - 1) + 1).
    { apply (run_at_kept i x); [lia | exact Hx | rewrite Hjs; eauto]. }
    pose proof (Hb2j _ _ Hjs) as Hpos.
    assert (Hcells : forall j, j ∈ js ->
              0 <= j /\ run_at b2j l j = run_at b2j l (j - 1) + 1).
    { intros j Hj. rewrite Hpos in Hj. apply positions_elem in Hj as [Hj0 Hjx].
      split; [lia|]. apply (run_at_kept j x); [lia | | rewrite Hjs; eauto].
      unfold item. replace (j - 0) with j in Hjx by lia. exact Hjx. }
    destruct (positions_split x l 0 (Z.to_nat i) Hx) as (lt & gt & Hsplit & Hlt & Hgt).
    replace (0 + Z.of_nat (Z.to_nat i)) with i in * by lia.
    rewrite Hsplit in Hpos. subst js.
    destruct (scan_js_dominated_pre i j2len (i :: gt) besti bestj bestsize
                Hlens Hkept lt ∅)
      as (new' & He & Hn' & _).
    { apply Forall_forall. intros j Hj.
      pose proof (proj1 (Forall_forall _ _) Hlt j Hj) as Hji. cbn beta in Hji.
      destruct (Hcells j) as [Hj0 HDj]; [apply elem_of_app; left; exact Hj|].
      split; [|lia]. split; [exact Hj0|]. split; [exact HDj|]. split; [lia|].
      pose proof (Hdom j). lia. }
    { apply lens_below_empty. }
    rewrite He. cbn [scan_js].
    replace (i <? 0) with false by (symmetry; apply Z.ltb_ge; lia).
    replace (n <=? i) with false by (symmetry; apply Z.leb_gt; lia).
    rewrite Hprev, <- Hkept.
    pose proof (run_at_nonneg (i - 1)) as Hnn.
    pose proof (run_at_le i ltac:(lia)) as Hle.
    assert (Hnew : lens_below b2j l i (<[i := run_at b2j l i]> new')).
    { intros j' v Hv. destruct (decide (i = j')) as [<-|Hjj].
      - rewrite lookup_insert_eq in Hv. injection Hv as <-. lia.
      - rewrite lookup_insert_ne in Hv by exact Hjj. exact (Hn' _ _ Hv). }
    assert (Hgt' : forall size, run_at b2j l i <= size ->
              Forall (cell_ok b2j l i size) gt).
    { intros size Hs. apply Forall_forall. intros j Hj.
      pose proof (proj1 (Forall_forall _ _) Hgt j Hj) as Hji. cbn beta in Hji.
      destruct (Hcells j) as [Hj0 HDj];
        [apply elem_of_app; right; apply elem_of_cons; right; exact Hj|].
      split; [exact Hj0|]. split; [exact HDj|]. split; lia. }
    destruct (bestsize <? run_at b2j l i) eqn:Eb.
    + apply Z.ltb_lt in Eb.
      destruct (scan_js_dominated_post i j2len
                  (i - run_at b2j l i + 1) (i - run_at b2j l i + 1) (run_at b2j l i)
                  Hlens Hkept gt _ (Hgt' _ (Z.le_refl _)) Hnew) as (Hb & Hl' & Hi').
      unfold row_inv. rewrite Hb. cbn [fst snd].
      replace (i + 1 - 1) with i by lia.
      split; [exact Hl'|]. rewrite Hi', lookup_insert_eq. cbn [default from_option id].
      split; [reflexivity|]. split; [reflexivity|].
      split; [lia|]. split; [lia|]. split; [lia|].
      intros r Hr. destruct (decide (r = i)) as [->|]; [lia|]. pose proof (Hdom r). lia.
    + apply Z.ltb_ge in Eb.
      destruct (scan_js_dominated_post i j2len besti bestj bestsize
                  Hlens Hkept gt _ (Hgt' _ Eb) Hnew) as (Hb & Hl' & Hi').
      unfold row_inv. rewrite Hb. cbn [fst snd].
      replace (i + 1 - 1) with i by lia.
      split; [exact Hl'|]. rewrite Hi', lookup_insert_eq. cbn [default from_option id].
      split; [reflexivity|]. split; [exact Hdiag|].
      split; [lia|]. split; [lia|]. split; [lia|].
      intros r Hr. destruct (decide (r = i)) as [->|]; [lia|]. pose proof (Hdom r). lia.
  - cbn [scan_js]. unfold row_inv. cbn [fst snd].
    replace (i + 1 - 1) with i by lia.
    pose proof (run_at_dropped i x ltac:(lia) Hx Hjs) as Hz.
    split; [apply lens_below_empty|]. rewrite lookup_empty. cbn [default from_option id].
    split; [lia|]. split; [exact Hdiag|]. split; [lia|]. split; [lia|]. split; [lia|].
    intros r Hr. destruct (decide (r = i)) as [->|]; [lia|]. pose proof (Hdom r). lia.
Qed.

Lemma scan_fold_row (m : nat) :
  (m <= length l)%nat ->
  row_inv b2j l (Z.of_nat m)
    (foldl (scan_i l b2j 0 n) (∅, (0, 0, 0)) (seqZ 0 (Z.of_nat m))).
Proof.
  induction m as [|m IH]; intros Hm.
  - change (seqZ 0 (Z.of_nat 0)) with (@nil Z). cbn [foldl].
    unfold row_inv. cbn [fst snd]. split; [apply lens_below_empty|].
    rewrite lookup_empty. split; [reflexivity|].
    split; [reflexivity|]. split; [lia|]. split; [lia|]. split; [lia|]. intros r Hr. lia.
  - replace (Z.of_nat (S m)) with (Z.of_nat m + 1) by lia.
    rewrite seqZ_app by lia. rewrite foldl_app.
    change (seqZ (0 + Z.of_nat m) 1) with [0 + Z.of_nat m].
    cbn [foldl]. replace (0 + Z.of_nat m) with (Z.of_nat m) by lia.
    apply scan_i_row; [lia|]. apply IH. lia.
Qed.

Lemma scan_self_diagonal :
  let best := scan l b2j 0 n 0 n in
  best.1.1 = best.1.2 /\ 0 <= best.1.1 /\ best.1.1 + best.2 <= n /\ 0 <= best.2.
Proof.
  cbv zeta. unfold scan. replace (n - 0) with (Z.of_nat (length l)) by lia.
  destruct (scan_fold_row (length l) (le_n _)) as (_ & _ & H1 & H2 & H3 & H4 & _).
  split; [exact H1|]. split; [exact H2|]. split; [lia | exact H4].
Qed.

End ScanSelf.

Section ExtendSelf.
Import Diagonal.
Context {T : Type} `{Countable T}.
Variable l : list T.
Variable n : Z.
Hypothesis Hn : n = Z.of_nat (length l).

Lemma eq_at_self i : 0 <= i < n -> eq_at l i l i = true.
Proof.
  intros Hi. unfold eq_at, item.
  destruct (lookup_lt_is_Some_2 l (Z.to_nat i)) as [x Hx]; [lia|].
  rewrite Hx. apply bool_decide_eq_true. reflexivity.
Qed.

Lemma isbjunk_at_false (b : list T) j : isbjunk_at b j = false.
Proof. unfold isbjunk_at. destruct (item b j); reflexivity. Qed.

Lemma extend_left_self room : forall i k,
  Z.of_nat room = i -> i <= n ->
  extend_left room false l l 0 0 (i, i, k) = (0, 0, k + i).
Proof.
  induction room as [|room IH]; intros i k Hr Hi.
  - cbn [extend_left]. subst i. change (Z.of_nat 0) with 0. rewrite Z.add_0_r. reflexivity.
  - cbn [extend_left]. rewrite isbjunk_at_false, eq_at_self by lia.
    replace (0 <? i) with true by (symmetry; apply Z.ltb_lt; lia).
    cbn [andb Bool.eqb]. rewrite IH by lia. f_equal. lia.
Qed.

Lemma extend_right_self room : forall i k,
  0 <= i -> 0 <= k -> Z.of_nat room = n - (i + k) ->
  extend_right room false l l n n (i, i, k) = (i, i, n - i).
Proof.
  induction room as [|room IH]; intros i k Hi Hk Hr.
  - cbn [extend_right]. f_equal. lia.
  - cbn [extend_right]. rewrite isbjunk_at_false, eq_at_self by lia.
    replace (i + k <? n) with true by (symmetry; apply Z.ltb_lt; lia).
    cbn [andb Bool.eqb]. apply IH; lia.
Qed.

Lemma extend_self i k :
  0 <= i -> 0 <= k -> i + k <= n ->
  extend l l 0 n 0 n (i, i, k) = (0, 0, n).
Proof.
  intros Hi Hk Hik. unfold extend. cbv zeta.
  assert (E1 : extend_left (room_left 0 (i, i, k)) false l l 0 0 (i, i, k) = (0, 0, k + i)).
  { unfold room_left. cbn [fst snd]. apply extend_left_self; lia. }
  rewrite E1.
  assert (E2 : extend_right (room_right n (0, 0, k + i)) false l l n n (0, 0, k + i)
               = (0, 0, n - 0)).
  { unfold room_right. cbn [fst snd]. apply extend_right_self; lia. }
  rewrite E2. replace (n - 0) with n by lia.
  unfold room_left. cbn [fst snd]. replace (Z.to_nat (0 - 0)) with O by lia.
  cbn [extend_left].
  unfold room_right. cbn [fst snd]. replace (Z.to_nat (n - (0 + n))) with O by lia.
  reflexivity.
Qed.

Lemma find_longest_match_self :
  find_longest_match l l (chain_b l) 0 n 0 n = (0, 0, n).
Proof.
  unfold find_longest_match.
  pose proof (scan_self_diagonal l (chain_b l) n Hn
                (fun x js Hx => proj1 (chain_b_lookup l x js Hx))) as Hs.
  cbv zeta in Hs. destruct (scan l (chain_b l) 0 n 0 n) as [[i j] k].
  cbn [fst snd] in Hs. destruct Hs as (<- & Hi & Hik & Hk).
  apply extend_self; assumption.
Qed.

Lemma get_matching_blocks_self :
  get_matching_blocks l l = if n =? 0 then [(0, 0, 0)] else [(0, 0, n); (n, n, 0)].
Proof.
  unfold get_matching_blocks, rounds_for. rewrite <- Hn.
  replace (2 * length l + 1)%nat with (S (2 * length l)) by lia.
  rewrite (matching_loop_step _ _ _ _ _ _ _ _ _ _ _ _ _ find_longest_match_self).
  destruct (n =? 0) eqn:En.
  - rewrite matching_loop_nil. apply Z.eqb_eq in En. rewrite En. reflexivity.
  - cbv zeta. rewrite Z.ltb_irrefl. cbn [andb].
    replace (0 + n <? n) with false by (symmetry; apply Z.ltb_ge; lia).
    cbn [andb app]. rewrite matching_loop_nil.
    change (merge_sort block_le [(0, 0, n)]) with [(0, 0, n)].
    cbn [foldl collapse_step]. change (0 + 0 =? 0) with true. cbn [andb].
    rewrite Z.add_0_l, En. reflexivity.
Qed.

Lemma get_opcodes_self :
  get_opcodes l l = if n =? 0 then [] else [(Equal, 0, n, 0, n)].
Proof.
  unfold get_opcodes. rewrite get_matching_blocks_self.
  destruct (n =? 0) eqn:En; [reflexivity|].
  cbn [foldl]. unfold opcode_step at 2.
  change (0 <? 0) with false. cbn [andb]. rewrite Z.add_0_l, En. cbn [app].
  unfold opcode_step. rewrite Z.ltb_irrefl. cbn [andb].
  change (0 =? 0) with true. reflexivity.
Qed.

Lemma get_grouped_opcodes_self : get_grouped_opcodes 3 l l = [].
Proof.
  unfold get_grouped_opcodes. rewrite get_opcodes_self.
  destruct (n =? 0) eqn:En; [reflexivity|].
  cbn [trim_first trim_last foldl group_step tag_eqb andb].
  replace (3 + 3 <? _) with false by (symmetry; apply Z.ltb_ge; lia).
  reflexivity.
Qed.

End ExtendSelf.

Lemma unified_diff_self (l : list string) : unified_diff l l = [].
Proof.
  unfold unified_diff. rewrite (get_grouped_opcodes_self l _ eq_refl). reflexivity.
Qed.

(** X17.  Against itself a text has an empty diff and the magnitude 0,
    whatever its length, and is no meaningful change. *)
Theorem same_text_empty_diff (t : string) :
  meaningful_delta t t = (false, "", 0%nat).
Proof.
  unfold meaningful_delta. rewrite unified_diff_self.
  cbn. rewrite andb_false_r. reflexivity.
Qed.

(** ** The notifications of a run *)

Section Notifications.

Import RunSpec Notified.

Lemma process_source_notifies env w s :
  let r := process_source env w s in
  length (slack_posts r.1) = (length (slack_posts w) + sent has_webhook env r.2)%nat
  /\ length (issues r.1) = (length (issues w) + sent has_tracker env r.2)%nat.
Proof.
  cbv zeta. unfold process_source.
  destruct (fetch_text env (src_url s)) as [after|]; [|cbn; lia].
  destruct (meaningful_delta _ after) as [[changed diff_text] mag].
  destruct changed; cbn [negb]; [|cbn; lia].
  destruct (snapshot_write env); [|cbn; lia ..].
  destruct (diff_write env); [|cbn; lia ..].
  destruct (log_append env); [|cbn; lia ..].
  unfold post_slack, create_issue.
  destruct (truthy (SLACK_WEBHOOK env)) eqn:Hw; cbn [negb].
  - destruct (slack_color _); [|cbn; lia].
    cbn [fst snd sent]. unfold has_webhook, has_tracker. rewrite Hw.
    destruct (truthy (GITHUB_TOKEN env) && truthy (REPO env));
      cbn [negb notify slack_posts issues set_snapshot set_diff append_event append_log];
      rewrite !length_app; cbn [length]; lia.
  - cbn [fst snd sent]. unfold has_webhook, has_tracker. rewrite Hw.
    destruct (truthy (GITHUB_TOKEN env) && truthy (REPO env));
      cbn [negb notify slack_posts issues set_snapshot set_diff append_event append_log];
      rewrite !length_app; cbn [length]; lia.
Qed.

(** X18.  A run notifies once per recording and never otherwise: it posts to
    Slack once for every recorded event whose environment names a webhook,
    and files one issue for every recorded event whose environment names a
    token and a repository. *)
Theorem run_notifies_once_per_recording (work : list (Env * Source)) (w : World) :
  length (slack_posts (run w work).1)
  = (length (slack_posts w) + notified has_webhook work (run w work).2)%nat
  /\ length (issues (run w work).1)
     = (length (issues w) + notified has_tracker work (run w work).2)%nat.
Proof.
  revert w. induction work as [|[env s] work IH]; intros w; [cbn; lia|].
  cbn [run].
  pose proof (process_source_notifies env w s) as Hp. cbv zeta in Hp.
  destruct (process_source env w s) as [w' o]. cbn [fst snd] in Hp.
  specialize (IH w').
  destruct (run w' work) as [w'' os]. cbn [fst snd] in IH.
  destruct o; cbn [fst snd notified sent] in *; lia.
Qed.

End Notifications.
